(** * The draft slice of the live-draft client

    A shallow embedding of the Redux slice [draftslice] (the state container of
    one draft session and its reducers) and the properties of its pick
    reconciler [processpick], its snapshot handlers [fetchinitialstate.*] and
    its detail handlers [fetchplayerhistory.*].

    JavaScript values are modelled as follows.
    - numbers that identify things ([pick_number], [player_id], the pick
      index) are integers [Z]; [===] on them is [bool_decide (_ = _)], and
      [+] is the sum of doubles, [js_add];
    - object keys ([team_id], [position]) are strings; an object used as a
      dictionary ([state.teams], [team.roster]) is a [gmap string _] holding
      its own properties, read through [js_get], which also accounts for the
      members every plain object inherits from [Object.prototype];
    - arrays are lists; [findIndex] returns [None] where JavaScript returns
      [-1]; [null]/[undefined] fields are [option]s;
    - a reducer body mutates an Immer draft: it is a function from the state to
      an [Outcome], either the finished draft or a raised exception together
      with the draft at the point of the throw.  [commit] is what the store
      keeps. *)

From stdpp Require Import gmap strings list fin_maps.

Open Scope Z_scope.

(** ** Records *)

Module Player.
Record t := mk { player_id : Z; player_name : string; position : string }.

#[global] Instance player_eq_dec : EqDecision t.
Proof. solve_decision. Defined.
End Player.

Module Pick.
Record t := mk { pick_number : Z; team_id : string; player : option Player.t }.

#[global] Instance pick_eq_dec : EqDecision t.
Proof. solve_decision. Defined.

(** [pick.player = p] *)
Definition set_player (p : option Player.t) (pick : t) : t :=
  {| pick_number := pick_number pick; team_id := team_id pick; player := p |}.
End Pick.

Module Team.
Record t := mk { roster : gmap string (list Player.t) }.

#[global] Instance team_eq_dec : EqDecision t.
Proof. solve_decision. Defined.
End Team.

(** The payload of a history fetch and the value a failed fetch is rejected
    with are opaque to the slice. *)
Definition History := string.
Definition ErrorInfo := string.

Module Detail.
Record t := mk {
  player : option Player.t;
  history : option History;
  loading : bool;
  error : option ErrorInfo
}.

#[global] Instance detail_eq_dec : EqDecision t.
Proof. solve_decision. Defined.
End Detail.

Inductive Status := idle | loading | succeeded | failed.

#[global] Instance Status_eq_dec : EqDecision Status.
Proof. solve_decision. Defined.

Record State := mkState {
  board : list Pick.t;
  teams : gmap string Team.t;
  availableplayers : list Player.t;
  currentpickindex : Z;
  totalpicks : Z;
  selectedplayerdetails : option Detail.t;
  status : Status;
  error : option string
}.

#[global] Instance State_eq_dec : EqDecision State.
Proof. solve_decision. Defined.

Definition initialState : State :=
  {| board := []; teams := ∅; availableplayers := [];
     currentpickindex := 0; totalpicks := 0;
     selectedplayerdetails := None; status := idle; error := None |}.

(** Assignments to one field of the draft. *)
Definition set_board (b : list Pick.t) (s : State) : State :=
  mkState b (teams s) (availableplayers s) (currentpickindex s) (totalpicks s)
          (selectedplayerdetails s) (status s) (error s).
Definition set_teams (t : gmap string Team.t) (s : State) : State :=
  mkState (board s) t (availableplayers s) (currentpickindex s) (totalpicks s)
          (selectedplayerdetails s) (status s) (error s).
Definition set_availableplayers (a : list Player.t) (s : State) : State :=
  mkState (board s) (teams s) a (currentpickindex s) (totalpicks s)
          (selectedplayerdetails s) (status s) (error s).
Definition set_currentpickindex (i : Z) (s : State) : State :=
  mkState (board s) (teams s) (availableplayers s) i (totalpicks s)
          (selectedplayerdetails s) (status s) (error s).
Definition set_totalpicks (n : Z) (s : State) : State :=
  mkState (board s) (teams s) (availableplayers s) (currentpickindex s) n
          (selectedplayerdetails s) (status s) (error s).
Definition set_selectedplayerdetails (d : option Detail.t) (s : State) : State :=
  mkState (board s) (teams s) (availableplayers s) (currentpickindex s)
          (totalpicks s) d (status s) (error s).
Definition set_status (st : Status) (s : State) : State :=
  mkState (board s) (teams s) (availableplayers s) (currentpickindex s)
          (totalpicks s) (selectedplayerdetails s) st (error s).
Definition set_error (e : option string) (s : State) : State :=
  mkState (board s) (teams s) (availableplayers s) (currentpickindex s)
          (totalpicks s) (selectedplayerdetails s) (status s) e.

(** ** Payloads *)

(** Push event "pick made": [{pick_number, player}]. *)
Module PickEvent.
Record t := mk { pick_number : Z; player : Player.t }.
End PickEvent.

(** Result of the bulk fetch. *)
Module Snapshot.
Record t := mk {
  board : list Pick.t;
  teams : gmap string Team.t;
  available_players : list Player.t;
  current_pick_index : Z;
  total_picks : Z
}.
End Snapshot.

(** ** JavaScript helpers *)

(** [Array.prototype.findIndex]: the first index whose element satisfies the
    callback; [None] stands for [-1]. *)
Fixpoint findindex {A} (f : A → bool) (l : list A) : option nat :=
  match l with
  | [] => None
  | x :: l' => if f x then Some 0%nat else S <$> findindex f l'
  end.

(** [Array.prototype.find]: the first element that satisfies the callback. *)
Fixpoint find {A} (f : A → bool) (l : list A) : option A :=
  match l with
  | [] => None
  | x :: l' => if f x then Some x else find f l'
  end.

(** The property names every plain object inherits from [Object.prototype].
    Reading one of them from an object that has no own property of that name
    gives the inherited member, which is truthy and is neither a team nor an
    array. *)
Definition object_prototype_names : list string :=
  ["constructor"; "__defineGetter__"; "__defineSetter__"; "hasOwnProperty";
   "__lookupGetter__"; "__lookupSetter__"; "isPrototypeOf";
   "propertyIsEnumerable"; "toString"; "valueOf"; "__proto__";
   "toLocaleString"]%string.

Definition inherited (k : string) : bool :=
  bool_decide (k ∈ object_prototype_names).

Inductive Lookup (A : Type) :=
  | Own (a : A)      (* an own property: a value of the dictionary *)
  | Inherited        (* a member of Object.prototype: truthy, not an [A] *)
  | Undefined.       (* undefined: falsy *)
Arguments Own {A} a.
Arguments Inherited {A}.
Arguments Undefined {A}.

(** [obj[k]] *)
Definition js_get {A} (obj : gmap string A) (k : string) : Lookup A :=
  match obj !! k with
  | Some a => Own a
  | None => if inherited k then Inherited else Undefined
  end.

Inductive JsError := TypeError.

(** What running a reducer body on a draft gives. *)
Inductive Outcome :=
  | Returned (s : State)
  | Thrown (e : JsError) (draft : State).

(** Immer keeps the finished draft; when the body throws, the draft is
    dropped and the store keeps the state it had. *)
Definition commit (before : State) (o : Outcome) : State :=
  match o with
  | Returned s => s
  | Thrown _ _ => before
  end.

Definition throws (o : Outcome) : bool :=
  match o with Returned _ => false | Thrown _ _ => true end.

(** ** Reducers *)

(** [processpick]: reducer for live pick updates from the websocket. *)
Definition processpick (state : State) (payload : PickEvent.t) : Outcome :=
  let pick_number := PickEvent.pick_number payload in
  let player := PickEvent.player payload in
  (* 1. update the pick on the board *)
  let pickindexonboard :=
    findindex (λ p, bool_decide (Pick.pick_number p = pick_number))
              (board state) in
  let state :=
    match pickindexonboard with
    | Some i =>
        set_board (alter (Pick.set_player (Some player)) i (board state)) state
    | None => state
    end in
  (* 2. remove the player from the available pool *)
  let state :=
    set_availableplayers
      (filter (λ p, Player.player_id p ≠ Player.player_id player)
              (availableplayers state)) state in
  (* 3. add player to the correct team's roster *)
  match pickindexonboard ≫= (λ i, board state !! i) with
  | None => Thrown TypeError state   (* state.board[-1] is undefined *)
  | Some slot =>
      let teamid := Pick.team_id slot in
      match js_get (teams state) teamid with
      | Undefined =>
          (* 4. update the current pick index *)
          Returned (set_currentpickindex pick_number state)
      | Inherited => Thrown TypeError state   (* team.roster is undefined *)
      | Own team =>
          let position := Player.position player in
          match js_get (Team.roster team) position with
          | Inherited => Thrown TypeError state   (* no push on that member *)
          | Undefined =>
              let team := Team.mk (<[position := [] ++ [player]]> (Team.roster team)) in
              let state := set_teams (<[teamid := team]> (teams state)) state in
              Returned (set_currentpickindex pick_number state)
          | Own r =>
              let team := Team.mk (<[position := r ++ [player]]> (Team.roster team)) in
              let state := set_teams (<[teamid := team]> (teams state)) state in
              Returned (set_currentpickindex pick_number state)
          end
      end
  end.

Definition clearselectedplayer (state : State) : State :=
  set_selectedplayerdetails None state.

Definition fetchinitialstate_pending (state : State) : State :=
  set_status loading state.

Definition fetchinitialstate_fulfilled (state : State) (payload : Snapshot.t) : State :=
  let state := set_status succeeded state in
  let state := set_board (Snapshot.board payload) state in
  let state := set_teams (Snapshot.teams payload) state in
  let state := set_availableplayers (Snapshot.available_players payload) state in
  let state := set_currentpickindex (Snapshot.current_pick_index payload) state in
  set_totalpicks (Snapshot.total_picks payload) state.

(** [message] is [action.error.message]. *)
Definition fetchinitialstate_rejected (state : State) (message : option string) : State :=
  let state := set_status failed state in
  set_error message state.

(** [arg] is [action.meta.arg], the player id the thunk was dispatched with. *)
Definition fetchplayerhistory_pending (state : State) (arg : Z) : State :=
  let playerfrompool :=
    find (λ p, bool_decide (Player.player_id p = arg)) (availableplayers state) in
  set_selectedplayerdetails
    (Some {| Detail.player := playerfrompool; Detail.history := None;
             Detail.loading := true; Detail.error := None |}) state.

Definition fetchplayerhistory_fulfilled (state : State) (arg : Z) (payload : History) : State :=
  match selectedplayerdetails state with
  | Some d =>
      let d := Detail.mk (Detail.player d) (Some payload) (Detail.loading d) (Detail.error d) in
      let d := Detail.mk (Detail.player d) (Detail.history d) false (Detail.error d) in
      set_selectedplayerdetails (Some d) state
  | None => state
  end.

Definition fetchplayerhistory_rejected (state : State) (arg : Z) (payload : option ErrorInfo) : State :=
  match selectedplayerdetails state with
  | Some d =>
      let d := Detail.mk (Detail.player d) (Detail.history d) false (Detail.error d) in
      let d := Detail.mk (Detail.player d) (Detail.history d) (Detail.loading d) payload in
      set_selectedplayerdetails (Some d) state
  | None => state
  end.

(** The actions the slice reacts to, and its reducer. *)
Inductive Action :=
  | ProcessPick (payload : PickEvent.t)
  | ClearSelectedPlayer
  | FetchInitialStatePending
  | FetchInitialStateFulfilled (payload : Snapshot.t)
  | FetchInitialStateRejected (message : option string)
  | FetchPlayerHistoryPending (arg : Z)
  | FetchPlayerHistoryFulfilled (arg : Z) (payload : History)
  | FetchPlayerHistoryRejected (arg : Z) (payload : option ErrorInfo).

Definition reducer (state : State) (action : Action) : Outcome :=
  match action with
  | ProcessPick payload => processpick state payload
  | ClearSelectedPlayer => Returned (clearselectedplayer state)
  | FetchInitialStatePending => Returned (fetchinitialstate_pending state)
  | FetchInitialStateFulfilled payload =>
      Returned (fetchinitialstate_fulfilled state payload)
  | FetchInitialStateRejected message =>
      Returned (fetchinitialstate_rejected state message)
  | FetchPlayerHistoryPending arg =>
      Returned (fetchplayerhistory_pending state arg)
  | FetchPlayerHistoryFulfilled arg payload =>
      Returned (fetchplayerhistory_fulfilled state arg payload)
  | FetchPlayerHistoryRejected arg payload =>
      Returned (fetchplayerhistory_rejected state arg payload)
  end.

(** The state the store holds after one action, and after a sequence of them
    in delivery order. *)
Definition dispatch (state : State) (action : Action) : State :=
  commit state (reducer state action).

Definition run (state : State) (actions : list Action) : State :=
  foldl dispatch state actions.

(** ** Where a player is held *)

(** Number of records with identity [pid] in an array of players. *)
Definition count_id (pid : Z) (l : list Player.t) : nat :=
  length (filter (λ p, Player.player_id p = pid) l).

(** ... in all position arrays of one roster, *)
Definition roster_occ (pid : Z) (r : gmap string (list Player.t)) : nat :=
  map_fold (λ _ l acc, count_id pid l + acc)%nat 0%nat r.

(** ... in the rosters of all teams, *)
Definition teams_occ (pid : Z) (ts : gmap string Team.t) : nat :=
  map_fold (λ _ t acc, roster_occ pid (Team.roster t) + acc)%nat 0%nat ts.

(** ... and in the pool and the rosters together. *)
Definition occ (pid : Z) (s : State) : nat :=
  (count_id pid (availableplayers s) + teams_occ pid (teams s))%nat.

(** Partition: no identity is held twice, be it in the pool and a roster, in
    two teams, or twice in one container. *)
Definition partition (s : State) : Prop := ∀ pid, (occ pid s ≤ 1)%nat.

(** ** The draft of the scenarios: three slots, two teams, three players *)

Module Scenario.
Definition p1 := Player.mk 1 "Ann" "QB".
Definition p2 := Player.mk 2 "Bob" "RB".
Definition p3 := Player.mk 3 "Cyd" "QB".

Definition snapshot : Snapshot.t :=
  {| Snapshot.board := [Pick.mk 1 "T1" None; Pick.mk 2 "T2" None; Pick.mk 3 "T1" None];
     Snapshot.teams := {[ "T1"%string := Team.mk ∅; "T2"%string := Team.mk ∅ ]};
     Snapshot.available_players := [p1; p2; p3];
     Snapshot.current_pick_index := 0;
     Snapshot.total_picks := 3 |}.

Definition loaded : State := fetchinitialstate_fulfilled initialState snapshot.

Definition pick1 := PickEvent.mk 1 p1.
Definition pick2 := PickEvent.mk 2 p2.
End Scenario.

Module UnknownTeam.
(** A board whose only slot belongs to a team the snapshot does not list. *)
Definition state : State :=
  set_board [Pick.mk 1 "T9" None] Scenario.loaded.
End UnknownTeam.

Module DuplicateNumbers.
(** A board on which the number 1 occurs twice. *)
Definition state : State :=
  set_board [Pick.mk 1 "T1" None; Pick.mk 1 "T2" None] Scenario.loaded.
End DuplicateNumbers.

(** ** Vocabulary of the properties *)

(** The callback of [findIndex] in [processpick]. *)
Definition has_pick_number (n : Z) (p : Pick.t) : bool :=
  bool_decide (Pick.pick_number p = n).

(** The draft after steps 1 and 2 of [processpick] when the slot was found
    at index [i]. *)
Definition picked (i : nat) (e : PickEvent.t) (s : State) : State :=
  set_availableplayers
    (filter (λ p, Player.player_id p ≠ Player.player_id (PickEvent.player e))
            (availableplayers s))
    (set_board (alter (Pick.set_player (Some (PickEvent.player e))) i (board s)) s).

(** Whether [processpick] runs to its end on the event: the slot exists and
    neither the team nor the position array it reads is a member inherited
    from [Object.prototype]. *)
Definition applicable (s : State) (e : PickEvent.t) : bool :=
  match findindex (has_pick_number (PickEvent.pick_number e)) (board s) with
  | None => false
  | Some i =>
      match board s !! i with
      | None => false
      | Some slot =>
          match js_get (teams s) (Pick.team_id slot) with
          | Undefined => true
          | Inherited => false
          | Own team =>
              match js_get (Team.roster team)
                           (Player.position (PickEvent.player e)) with
              | Inherited => false
              | _ => true
              end
          end
      end
  end.

(** What holds of every state [processpick] returns: the slot addressed by
    the event holds the event's player, the pool is free of the player, and
    the slot's team, when it is known, has the player last in the array of
    the player's position. *)
Definition applied (e : PickEvent.t) (s : State) (i : nat) (slot : Pick.t) : Prop :=
  findindex (has_pick_number (PickEvent.pick_number e)) (board s) = Some i
  ∧ board s !! i = Some slot
  ∧ Pick.player slot = Some (PickEvent.player e)
  ∧ filter (λ p, Player.player_id p ≠ Player.player_id (PickEvent.player e))
           (availableplayers s) = availableplayers s
  ∧ currentpickindex s = PickEvent.pick_number e
  ∧ match js_get (teams s) (Pick.team_id slot) with
    | Undefined => True
    | Inherited => False
    | Own team =>
        ∃ r, Team.roster team !! Player.position (PickEvent.player e)
             = Some (r ++ [PickEvent.player e])
    end.


(** ** The board component *)

(** Numbers are IEEE 754 doubles.  [round_double z] is the double nearest to
    the integer [z] (ties to the even significand), for [z] within the range
    of finite doubles: integers of magnitude up to [2^53] are exact, larger
    ones keep 53 significant bits. *)
Definition round_double (z : Z) : Z :=
  let a := Z.abs z in
  let k := Z.log2 a - 52 in
  if k <=? 0 then z
  else
    let q := a / 2 ^ k in
    let r := a mod 2 ^ k in
    let half := 2 ^ (k - 1) in
    let q' := if r <? half then q
              else if half <? r then q + 1
              else q + q mod 2 in
    Z.sgn z * (q' * 2 ^ k).

(** [a + b] on integer-valued doubles: the exact sum, rounded. *)
Definition js_add (a b : Z) : Z := round_double (a + b).

(** What [draftboard] renders for one pick: the [key] and the class name of
    the cell, the pick number shown, and, when the slot has a player, the
    player's name and position. *)
Module DraftBoard.
Record Cell := mkCell {
  key : Z;
  classname : string;
  pick_number : Z;
  player_name : option string;
  player_info : option string
}.

#[global] Instance cell_eq_dec : EqDecision Cell.
Proof. solve_decision. Defined.
End DraftBoard.

Definition draftboard_cell (currentpickindex : Z) (pick : Pick.t) : DraftBoard.Cell :=
  {| DraftBoard.key := Pick.pick_number pick;
     DraftBoard.classname :=
       ("draft-pick-cell " ++
        (if bool_decide (Pick.pick_number pick = js_add currentpickindex 1)
         then "current-pick" else ""))%string;
     DraftBoard.pick_number := Pick.pick_number pick;
     DraftBoard.player_name :=
       match Pick.player pick with
       | Some player => Some (Player.player_name player)
       | None => None
       end;
     DraftBoard.player_info :=
       match Pick.player pick with
       | Some player => Some (Player.position player)
       | None => None
       end |}.

(** [board.map(pick => ...)] with [board] and [currentpickindex] selected
    from the slice. *)
Definition draftboard (state : State) : list DraftBoard.Cell :=
  draftboard_cell (currentpickindex state) <$> board state.

(** ** Kinds of actions and further invariants *)

Definition is_snapshot_action (a : Action) : bool :=
  match a with
  | FetchInitialStatePending
  | FetchInitialStateFulfilled _
  | FetchInitialStateRejected _ => true
  | _ => false
  end.

Definition is_detail_action (a : Action) : bool :=
  match a with
  | ClearSelectedPlayer
  | FetchPlayerHistoryPending _
  | FetchPlayerHistoryFulfilled _ _
  | FetchPlayerHistoryRejected _ _ => true
  | _ => false
  end.

(** The only action that installs a new board, new teams and a new pool. *)
Definition replaces_bulk (a : Action) : bool :=
  match a with
  | FetchInitialStateFulfilled _ => true
  | _ => false
  end.

(** No identity is both in the pool and in a roster. *)
Definition pool_rosters_disjoint (s : State) : Prop :=
  ∀ pid, (1 ≤ teams_occ pid (teams s))%nat →
         count_id pid (availableplayers s) = 0%nat.

(** No player shown on the board is in the pool. *)
Definition board_pool_disjoint (s : State) : Prop :=
  ∀ slot p, slot ∈ board s → Pick.player slot = Some p →
            count_id (Player.player_id p) (availableplayers s) = 0%nat.

(** The [teams] dictionary after the roster step of [processpick] for a slot
    of team [teamid]: untouched when the team is unknown, else the player
    pushed onto the array of its position. *)
Definition teams_after_push (teamid : string) (player : Player.t)
    (ts : gmap string Team.t) : gmap string Team.t :=
  match ts !! teamid with
  | None => ts
  | Some team =>
      <[teamid :=
          Team.mk (<[Player.position player :=
                       default [] (Team.roster team !! Player.position player)
                       ++ [player]]> (Team.roster team))]> ts
  end.

(** * Properties *)

(** ** The scenarios *)

Example scenario_initial_load :
  status Scenario.loaded = succeeded ∧ currentpickindex Scenario.loaded = 0
  ∧ length (availableplayers Scenario.loaded) = 3%nat.
Proof. by vm_compute. Qed.

Example scenario_normal_pick :
  ∃ s, processpick Scenario.loaded Scenario.pick1 = Returned s
    ∧ Pick.player <$> board s !! 0%nat = Some (Some Scenario.p1)
    ∧ availableplayers s = [Scenario.p2; Scenario.p3]
    ∧ (Team.roster <$> teams s !! "T1"%string) = Some {[ "QB"%string := [Scenario.p1] ]}
    ∧ currentpickindex s = 1.
Proof. eexists. split; [by vm_compute|]. by vm_compute. Qed.

(** ** Arrays *)

Section arrays.
Context {A : Type}.
Implicit Types (f : A → bool) (l : list A).

Lemma findindex_Some f l i :
  findindex f l = Some i → ∃ x, l !! i = Some x ∧ f x = true.
Proof.
  revert i. induction l as [|y l IH]; intros i; simpl; [done|].
  destruct (f y) eqn:Hy.
  - intros [= <-]. eauto.
  - destruct (findindex f l) as [j|]; simpl; [|done].
    intros [= <-]. apply IH. done.
Qed.

(** An in-place update that the callback cannot see does not move the
    index. *)
Lemma findindex_alter f (g : A → A) l i :
  (∀ x, f (g x) = f x) → findindex f (alter g i l) = findindex f l.
Proof.
  intros Hg. revert i. induction l as [|y l IH]; intros [|i]; simpl; try done.
  - by rewrite Hg.
  - by rewrite <-(IH i).
Qed.

Lemma alter_fixed (g : A → A) l i x :
  l !! i = Some x → g x = x → alter g i l = l.
Proof.
  revert i. induction l as [|y l IH]; intros [|i]; simpl; try done.
  - intros [= ->] ->. done.
  - intros Hx Hg. f_equal. by apply IH.
Qed.

Lemma find_Some f l x : find f l = Some x → x ∈ l ∧ f x = true.
Proof.
  induction l as [|y l IH]; simpl; [done|].
  destruct (f y) eqn:Hy.
  - intros [= <-]. split; [left|done].
  - intros [??]%IH. split; [by right|done].
Qed.

Lemma find_None f l : find f l = None ↔ ∀ x, x ∈ l → f x = false.
Proof.
  induction l as [|y l IH]; simpl.
  - split; [by intros _ ? ?%elem_of_nil|done].
  - destruct (f y) eqn:Hy.
    + split; [done|]. intros H. specialize (H y (list_elem_of_here _ _)). congruence.
    + rewrite IH. split.
      * intros H x [->|?]%elem_of_cons; auto.
      * intros H x ?. apply H. by right.
Qed.
End arrays.

(** ** Counting identities *)

Lemma count_id_app pid (l1 l2 : list Player.t) :
  count_id pid (l1 ++ l2) = (count_id pid l1 + count_id pid l2)%nat.
Proof. unfold count_id. by rewrite filter_app, length_app. Qed.

Lemma count_id_singleton pid (p : Player.t) :
  count_id pid [p] = if decide (Player.player_id p = pid) then 1%nat else 0%nat.
Proof.
  unfold count_id. rewrite filter_cons, filter_nil. by case_decide.
Qed.

(** Filtering an identity out of the pool removes all its records and no
    others. *)
Lemma count_id_filter_out pid id (l : list Player.t) :
  count_id pid (filter (λ p, Player.player_id p ≠ id) l)
  = if decide (pid = id) then 0%nat else count_id pid l.
Proof.
  unfold count_id. induction l as [|p l IH]; simpl.
  - by case_decide.
  - rewrite !filter_cons.
    destruct (decide (Player.player_id p ≠ id)) as [Hne|Heq%dec_stable].
    + rewrite filter_cons. destruct (decide (Player.player_id p = pid)); simpl.
      * rewrite IH. case_decide; [congruence|done].
      * rewrite IH. done.
    + rewrite IH. case_decide; [done|].
      rewrite decide_False by congruence. done.
  Qed.

Lemma count_id_pos pid (l : list Player.t) (p : Player.t) :
  p ∈ l → Player.player_id p = pid → (1 ≤ count_id pid l)%nat.
Proof.
  intros Hin Hid. unfold count_id.
  assert (p ∈ filter (λ q, Player.player_id q = pid) l) as Hf
    by (by apply list_elem_of_filter).
  destruct (filter _ l); [by apply elem_of_nil in Hf|simpl; lia].
Qed.

Lemma filter_out_idemp id (l : list Player.t) :
  filter (λ p, Player.player_id p ≠ id) (filter (λ p, Player.player_id p ≠ id) l)
  = filter (λ p, Player.player_id p ≠ id) l.
Proof.
  induction l as [|p l IH]; [done|].
  rewrite filter_cons. case_decide; [|done].
  rewrite filter_cons, decide_True by done. by rewrite IH.
Qed.

Lemma filter_all_keep {A} (P : A → Prop) `{!∀ x, Decision (P x)} (l : list A) :
  (∀ x, x ∈ l → P x) → filter P l = l.
Proof.
  induction l as [|x l IH]; intros Hall; [done|].
  rewrite filter_cons, decide_True by (apply Hall; left).
  f_equal. apply IH. intros y Hy. apply Hall. by right.
Qed.

(** Sums over a dictionary. *)
Section map_sum.
Context {V : Type} (w : V → nat).

Lemma map_sum_insert_None (m : gmap string V) k y :
  m !! k = None →
  map_fold (λ _ x acc, w x + acc)%nat 0%nat (<[k:=y]> m)
  = (w y + map_fold (λ _ x acc, w x + acc)%nat 0%nat m)%nat.
Proof.
  intros Hk. rewrite map_fold_insert_L; [done| |done].
  intros. lia.
Qed.

Lemma map_sum_insert_Some (m : gmap string V) k x y :
  m !! k = Some x →
  (map_fold (λ _ x acc, w x + acc)%nat 0%nat (<[k:=y]> m) + w x
   = map_fold (λ _ x acc, w x + acc)%nat 0%nat m + w y)%nat.
Proof.
  intros Hk.
  rewrite (map_fold_delete_L _ _ k x m); [| intros; lia | done].
  rewrite <-insert_delete_eq.
  rewrite map_sum_insert_None by apply lookup_delete_eq. lia.
Qed.
End map_sum.

(** ** The pick reconciler, case by case *)

Lemma processpick_found s e i slot :
  findindex (has_pick_number (PickEvent.pick_number e)) (board s) = Some i →
  board s !! i = Some slot →
  processpick s e =
    match js_get (teams s) (Pick.team_id slot) with
    | Undefined =>
        Returned (set_currentpickindex (PickEvent.pick_number e) (picked i e s))
    | Inherited => Thrown TypeError (picked i e s)
    | Own team =>
        let position := Player.position (PickEvent.player e) in
        match js_get (Team.roster team) position with
        | Inherited => Thrown TypeError (picked i e s)
        | Undefined =>
            Returned (set_currentpickindex (PickEvent.pick_number e)
              (set_teams (<[Pick.team_id slot :=
                   Team.mk (<[position := [PickEvent.player e]]> (Team.roster team))]>
                   (teams s)) (picked i e s)))
        | Own r =>
            Returned (set_currentpickindex (PickEvent.pick_number e)
              (set_teams (<[Pick.team_id slot :=
                   Team.mk (<[position := r ++ [PickEvent.player e]]> (Team.roster team))]>
                   (teams s)) (picked i e s)))
        end
    end.
Proof.
  intros Hi Hslot. unfold processpick.
  change (λ p, bool_decide (Pick.pick_number p = PickEvent.pick_number e))
    with (has_pick_number (PickEvent.pick_number e)).
  rewrite Hi. simpl. rewrite list_lookup_alter_eq, Hslot. simpl.
  reflexivity.
Qed.

Lemma processpick_not_found s e :
  findindex (has_pick_number (PickEvent.pick_number e)) (board s) = None →
  processpick s e
  = Thrown TypeError
      (set_availableplayers
         (filter (λ p, Player.player_id p ≠ Player.player_id (PickEvent.player e))
                 (availableplayers s)) s).
Proof.
  intros Hi. unfold processpick.
  change (λ p, bool_decide (Pick.pick_number p = PickEvent.pick_number e))
    with (has_pick_number (PickEvent.pick_number e)).
  by rewrite Hi.
Qed.

Lemma findindex_lookup s n i :
  findindex (has_pick_number n) (board s) = Some i →
  ∃ slot, board s !! i = Some slot ∧ Pick.pick_number slot = n.
Proof.
  intros (slot & Hslot & Hn)%findindex_Some. exists slot. split; [done|].
  by apply bool_decide_eq_true in Hn.
Qed.

(** [processpick] returns exactly on the applicable events. *)
Lemma processpick_returns_iff s e :
  applicable s e = true ↔ ∃ s', processpick s e = Returned s'.
Proof.
  unfold applicable.
  destruct (findindex _ (board s)) as [i|] eqn:Hi.
  - destruct (findindex_lookup _ _ _ Hi) as (slot & Hslot & _).
    rewrite Hslot, (processpick_found _ _ _ _ Hi Hslot).
    destruct (js_get (teams s) _) as [team| |]; simpl.
    + destruct (js_get (Team.roster team) _); simpl; split; eauto; try done.
      by intros [? ?].
    + split; [done|by intros [? ?]].
    + split; eauto.
  - rewrite (processpick_not_found _ _ Hi). split; [done|by intros [? ?]].
Qed.

(** The [teams] dictionary of the state [processpick] returns. *)
Lemma processpick_returned_teams s e s' i slot :
  findindex (has_pick_number (PickEvent.pick_number e)) (board s) = Some i →
  board s !! i = Some slot →
  processpick s e = Returned s' →
  teams s' = teams_after_push (Pick.team_id slot) (PickEvent.player e) (teams s).
Proof.
  intros Hi Hslot. rewrite (processpick_found _ _ _ _ Hi Hslot).
  unfold teams_after_push, js_get.
  destruct (teams s !! Pick.team_id slot) as [team|]; simpl.
  - destruct (Team.roster team !! _) as [r|]; simpl; [by intros [= <-]|].
    destruct (inherited (Player.position _)); [done|by intros [= <-]].
  - destruct (inherited (Pick.team_id slot)); [done|by intros [= <-]].
Qed.

(** ** Snapshot loading *)

(** C7. A failed initial-state fetch is atomic: [fetchinitialstate.rejected]
    sets the status to [failed] and stores the error message, and leaves
    board, teams, pool, pick index, total picks (and the selected player's
    detail) exactly as they were; on a first load, from [initialState], they
    are therefore still empty. *)
Theorem fetchinitialstate_rejected_atomic (s : State) (message : option string) :
  let s' := dispatch s (FetchInitialStateRejected message) in
  (status s' = failed ∧ error s' = message)
  ∧ (board s' = board s ∧ teams s' = teams s
     ∧ availableplayers s' = availableplayers s
     ∧ currentpickindex s' = currentpickindex s
     ∧ totalpicks s' = totalpicks s
     ∧ selectedplayerdetails s' = selectedplayerdetails s)
  ∧ (let first := dispatch (dispatch initialState FetchInitialStatePending)
                           (FetchInitialStateRejected message) in
     board first = [] ∧ teams first = ∅ ∧ availableplayers first = []
     ∧ currentpickindex first = 0 ∧ totalpicks first = 0
     ∧ status first = failed ∧ error first = message).
Proof.
  destruct s; unfold dispatch; simpl.
  unfold fetchinitialstate_rejected, set_error, set_status; simpl.
  repeat split.
Qed.

(** ** Player detail *)

(** C5, as the code has it.  The completion of a history fetch attaches its
    payload whenever a detail is present, whatever the detail holds and
    whichever player it names, and whichever player the completed fetch was
    started for: the detail keeps its player and its error, gets the payload
    as history and [loading = false]; nothing else in the state changes.  So
    after [select a], [select b] and the completion of the fetch for [a], the
    detail shows the pool record of [b] with the history fetched for [a]. *)
Theorem fetchplayerhistory_fulfilled_ignores_identity
    (s : State) (d : Detail.t) (arg : Z) (payload : History) :
  selectedplayerdetails s = Some d →
  dispatch s (FetchPlayerHistoryFulfilled arg payload)
  = set_selectedplayerdetails
      (Some {| Detail.player := Detail.player d;
               Detail.history := Some payload;
               Detail.loading := false;
               Detail.error := Detail.error d |}) s
  ∧ ∀ a b history_a,
      selectedplayerdetails
        (dispatch (run s [FetchPlayerHistoryPending a; FetchPlayerHistoryPending b])
                  (FetchPlayerHistoryFulfilled a history_a))
      = Some {| Detail.player :=
                  find (λ p, bool_decide (Player.player_id p = b))
                       (availableplayers s);
                Detail.history := Some history_a;
                Detail.loading := false;
                Detail.error := None |}.
Proof.
  intros Hd. split; [|by destruct s].
  unfold dispatch. simpl. unfold fetchplayerhistory_fulfilled. by rewrite Hd.
Qed.

Lemma fetchplayerhistory_fulfilled_ignores_identity_witness :
  let s := run Scenario.loaded
             [FetchPlayerHistoryPending 1;
              FetchPlayerHistoryRejected 1 (Some "not found"%string);
              FetchPlayerHistoryFulfilled 1 "first history"] in
  selectedplayerdetails s
    = Some (Detail.mk (Some Scenario.p1) (Some "first history"%string) false
                      (Some "not found"%string))
  ∧ dispatch s (FetchPlayerHistoryFulfilled 3 "history of player 3")
    = set_selectedplayerdetails
        (Some (Detail.mk (Some Scenario.p1) (Some "history of player 3"%string)
                         false (Some "not found"%string))) s
  ∧ ∀ a b history_a,
      selectedplayerdetails
        (dispatch (run s [FetchPlayerHistoryPending a; FetchPlayerHistoryPending b])
                  (FetchPlayerHistoryFulfilled a history_a))
      = Some {| Detail.player :=
                  find (λ p, bool_decide (Player.player_id p = b))
                       (availableplayers s);
                Detail.history := Some history_a;
                Detail.loading := false;
                Detail.error := None |}.
Proof.
  split; [reflexivity|].
  apply (fetchplayerhistory_fulfilled_ignores_identity
           (run Scenario.loaded
              [FetchPlayerHistoryPending 1;
               FetchPlayerHistoryRejected 1 (Some "not found"%string);
               FetchPlayerHistoryFulfilled 1 "first history"])
           (Detail.mk (Some Scenario.p1) (Some "first history"%string) false
                      (Some "not found"%string))
           3 "history of player 3").
  reflexivity.
Defined.

(** C5 fails as stated: select player 1, select player 2, then let the fetch
    for player 1 complete; the detail names player 2 and carries the history
    of player 1. *)
Lemma stale_history_is_attached :
  let s2 := run Scenario.loaded
              [FetchPlayerHistoryPending 1; FetchPlayerHistoryPending 2] in
  let s3 := dispatch s2 (FetchPlayerHistoryFulfilled 1 "history of player 1") in
  selectedplayerdetails s2
    = Some (Detail.mk (Some Scenario.p2) None true None)
  ∧ selectedplayerdetails s3
    = Some (Detail.mk (Some Scenario.p2) (Some "history of player 1"%string) false None).
Proof. split; reflexivity. Qed.

(** [find] returns the first element that satisfies the callback. *)
Lemma find_first {A} (f : A → bool) (l : list A) x :
  find f l = Some x →
  ∃ i, l !! i = Some x ∧ f x = true
       ∧ ∀ j y, (j < i)%nat → l !! j = Some y → f y = false.
Proof.
  induction l as [|z l IH]; simpl; [done|].
  destruct (f z) eqn:Hz.
  - intros [= <-]. exists 0%nat. split; [done|]. split; [done|]. intros; lia.
  - intros (i & Hi & Hx & Hbefore)%IH. exists (S i).
    split; [done|]. split; [done|].
    intros [|j] y Hlt; simpl.
    + by intros [= <-].
    + apply Hbefore. lia.
Qed.

(** C9, as the code has it.  [select arg] seeds the detail with
    [availableplayers.find(p => p.player_id === arg)], with [loading = true]
    and no history and no error: the player record is the first pool record
    whose identity is [arg] (no earlier pool record has that identity), and
    when the pool holds no such record the detail has no player record at
    all, whatever the rosters hold: the seeded detail does not depend on
    [teams].  No other field of the state changes. *)
Theorem fetchplayerhistory_pending_seeds_from_pool (s : State) (arg : Z) :
  let s' := dispatch s (FetchPlayerHistoryPending arg) in
  let seed := find (λ p, bool_decide (Player.player_id p = arg)) (availableplayers s) in
  selectedplayerdetails s' = Some (Detail.mk seed None true None)
  ∧ match seed with
    | Some p =>
        ∃ i, availableplayers s !! i = Some p
             ∧ Player.player_id p = arg
             ∧ ∀ j q, (j < i)%nat → availableplayers s !! j = Some q →
                      Player.player_id q ≠ arg
    | None => ∀ p, p ∈ availableplayers s → Player.player_id p ≠ arg
    end
  ∧ (∀ ts, selectedplayerdetails (dispatch (set_teams ts s) (FetchPlayerHistoryPending arg))
           = selectedplayerdetails s')
  ∧ s' = set_selectedplayerdetails (selectedplayerdetails s') s.
Proof.
  cbv zeta. split; [done|]. split; [|split; done].
  destruct (find _ (availableplayers s)) as [p|] eqn:Hf.
  - apply find_first in Hf as (i & Hi & Hp%bool_decide_eq_true & Hbefore).
    exists i. split; [done|]. split; [done|].
    intros j q Hlt Hq. specialize (Hbefore j q Hlt Hq).
    by apply bool_decide_eq_false in Hbefore.
  - intros p Hp. rewrite find_None in Hf.
    specialize (Hf p Hp). by apply bool_decide_eq_false in Hf.
Qed.

(** With two pool records of one identity the first is taken. *)
Example fetchplayerhistory_pending_takes_first :
  let twin := Player.mk 1 "Ann (second record)" "WR" in
  let s := set_availableplayers [Scenario.p2; Scenario.p1; twin] Scenario.loaded in
  selectedplayerdetails (dispatch s (FetchPlayerHistoryPending 1))
  = Some (Detail.mk (Some Scenario.p1) None true None).
Proof. reflexivity. Qed.

(** C9 fails as stated: once player 1 has been drafted into the roster of
    team T1 and left the pool, selecting player 1 seeds a detail without a
    player record, although the roster holds the record. *)
Lemma drafted_player_is_not_seeded :
  let s1 := dispatch Scenario.loaded (ProcessPick Scenario.pick1) in
  let s2 := dispatch s1 (FetchPlayerHistoryPending 1) in
  (Scenario.p1 ∉ availableplayers s1)
  ∧ (teams s1 !! "T1"%string ≫= (λ t, Team.roster t !! "QB"%string)) = Some [Scenario.p1]
  ∧ selectedplayerdetails s2 = Some (Detail.mk None None true None).
Proof.
  split; [|split; by vm_compute].
  intros H%list_elem_of_In. vm_compute in H.
  intuition discriminate.
Qed.

(** C10. A history fetch that completes, fulfilled or rejected, while no
    player is selected (for instance after [clearselectedplayer] ran while
    the fetch was in flight) leaves the whole state unchanged. *)
Theorem completion_without_selection_is_noop
    (s : State) (arg : Z) (payload : History) (err : option ErrorInfo) :
  selectedplayerdetails s = None →
  dispatch s (FetchPlayerHistoryFulfilled arg payload) = s
  ∧ dispatch s (FetchPlayerHistoryRejected arg err) = s.
Proof.
  intros Hsel. unfold dispatch; simpl.
  unfold fetchplayerhistory_fulfilled, fetchplayerhistory_rejected.
  by rewrite Hsel.
Qed.

Lemma completion_without_selection_is_noop_witness :
  let s := run Scenario.loaded [FetchPlayerHistoryPending 2; ClearSelectedPlayer] in
  selectedplayerdetails s = None
  ∧ dispatch s (FetchPlayerHistoryFulfilled 2 "history of player 2") = s
  ∧ dispatch s (FetchPlayerHistoryRejected 2 (Some "not found"%string)) = s.
Proof.
  split; [reflexivity|].
  apply (completion_without_selection_is_noop
           (run Scenario.loaded [FetchPlayerHistoryPending 2; ClearSelectedPlayer])
           2 "history of player 2" (Some "not found"%string)).
  reflexivity.
Defined.

(** ** What a pick event changes *)

(** The fields of the state [processpick] returns. *)
Lemma processpick_returned_fields s e s' i :
  findindex (has_pick_number (PickEvent.pick_number e)) (board s) = Some i →
  processpick s e = Returned s' →
  board s' = alter (Pick.set_player (Some (PickEvent.player e))) i (board s)
  ∧ availableplayers s'
    = filter (λ p, Player.player_id p ≠ Player.player_id (PickEvent.player e))
             (availableplayers s)
  ∧ currentpickindex s' = PickEvent.pick_number e
  ∧ totalpicks s' = totalpicks s
  ∧ selectedplayerdetails s' = selectedplayerdetails s
  ∧ status s' = status s
  ∧ error s' = error s.
Proof.
  intros Hi. destruct (findindex_lookup _ _ _ Hi) as (slot & Hslot & _).
  rewrite (processpick_found _ _ _ _ Hi Hslot).
  destruct (js_get (teams s) _) as [team| |]; [|done|by intros [= <-]].
  simpl. destruct (js_get (Team.roster team) _); [|done|]; by intros [= <-].
Qed.

(** The board of the state the store keeps after a pick event: the slot the
    event addresses takes the event's player, every other slot is as before. *)
Lemma dispatch_pick_slot s e j slot :
  board s !! j = Some slot →
  ∃ slot', board (dispatch s (ProcessPick e)) !! j = Some slot'
    ∧ Pick.pick_number slot' = Pick.pick_number slot
    ∧ Pick.team_id slot' = Pick.team_id slot
    ∧ (Pick.player slot' = Pick.player slot
       ∨ (Pick.pick_number slot = PickEvent.pick_number e
          ∧ Pick.player slot' = Some (PickEvent.player e))).
Proof.
  intros Hj. unfold dispatch. simpl.
  destruct (processpick s e) as [s'|err draft] eqn:Hp; simpl;
    [|exists slot; auto].
  destruct (findindex (has_pick_number (PickEvent.pick_number e)) (board s))
    as [i|] eqn:Hi.
  - destruct (processpick_returned_fields _ _ _ _ Hi Hp) as (-> & _).
    destruct (decide (i = j)) as [->|Hne].
    + rewrite list_lookup_alter_eq, Hj. simpl. eexists. split; [done|].
      destruct (findindex_lookup _ _ _ Hi) as (slot0 & Hslot0 & Hn).
      assert (slot0 = slot) as -> by congruence. auto.
    + rewrite list_lookup_alter_ne by done. exists slot. auto.
  - rewrite (processpick_not_found _ _ Hi) in Hp. done.
Qed.

(** An event whose pick number matches no slot makes [processpick] raise a
    [TypeError] when it reads the team of the slot it did not find; the store
    keeps the state it had. *)
Lemma processpick_out_of_range s e :
  findindex (has_pick_number (PickEvent.pick_number e)) (board s) = None →
  throws (processpick s e) = true ∧ dispatch s (ProcessPick e) = s.
Proof.
  intros Hi. unfold dispatch. simpl.
  by rewrite (processpick_not_found _ _ Hi).
Qed.

(** C4, on the loaded scenario: pick number 7 matches none of the three
    slots; [processpick] does not reject the event but raises a [TypeError],
    which leaves the reducer, with the pool of the abandoned draft already
    filtered.  The store keeps the state it had. *)
Theorem processpick_out_of_range_raises :
  let e := PickEvent.mk 7 Scenario.p1 in
  findindex (has_pick_number 7) (board Scenario.loaded) = None
  ∧ processpick Scenario.loaded e
    = Thrown TypeError
        (set_availableplayers [Scenario.p2; Scenario.p3] Scenario.loaded)
  ∧ throws (processpick Scenario.loaded e) = true
  ∧ dispatch Scenario.loaded (ProcessPick e) = Scenario.loaded.
Proof.
  assert (findindex (has_pick_number 7) (board Scenario.loaded) = None) as Hi
    by reflexivity.
  split; [done|]. split; [by vm_compute|].
  apply (processpick_out_of_range Scenario.loaded (PickEvent.mk 7 Scenario.p1) Hi).
Qed.

(** C3, as the code has it.  Every pick event that [processpick] applies
    sets [currentpickindex] to the event's pick number, above or below the
    value it had: an event whose pick number is less than the current value
    fills its board slot and lowers [currentpickindex] to that number. *)
Theorem processpick_sets_currentpickindex (s : State) (e : PickEvent.t) :
  applicable s e = true →
  ∃ s' i slot,
    processpick s e = Returned s'
    ∧ currentpickindex s' = PickEvent.pick_number e
    ∧ findindex (has_pick_number (PickEvent.pick_number e)) (board s) = Some i
    ∧ board s' !! i = Some slot
    ∧ Pick.pick_number slot = PickEvent.pick_number e
    ∧ Pick.player slot = Some (PickEvent.player e)
    ∧ (PickEvent.pick_number e < currentpickindex s →
       currentpickindex s' < currentpickindex s).
Proof.
  intros [s' Hp]%processpick_returns_iff.
  destruct (findindex (has_pick_number (PickEvent.pick_number e)) (board s))
    as [i|] eqn:Hi.
  - destruct (processpick_returned_fields _ _ _ _ Hi Hp) as (Hb & _ & Hc & _).
    destruct (findindex_lookup _ _ _ Hi) as (slot & Hslot & Hn).
    exists s', i, (Pick.set_player (Some (PickEvent.player e)) slot).
    rewrite Hb, list_lookup_alter_eq, Hslot, Hc. simpl.
    repeat split; auto.
  - rewrite (processpick_not_found _ _ Hi) in Hp. done.
Qed.

Lemma processpick_sets_currentpickindex_witness :
  let s := dispatch Scenario.loaded (ProcessPick Scenario.pick2) in
  applicable s Scenario.pick1 = true
  ∧ currentpickindex s = 2
  ∧ ∃ s' i slot,
      processpick s Scenario.pick1 = Returned s'
      ∧ currentpickindex s' = 1
      ∧ findindex (has_pick_number 1) (board s) = Some i
      ∧ board s' !! i = Some slot
      ∧ Pick.pick_number slot = 1
      ∧ Pick.player slot = Some Scenario.p1
      ∧ (1 < currentpickindex s → currentpickindex s' < currentpickindex s).
Proof.
  split; [by vm_compute|]. split; [by vm_compute|].
  apply (processpick_sets_currentpickindex
           (dispatch Scenario.loaded (ProcessPick Scenario.pick2)) Scenario.pick1).
  by vm_compute.
Defined.

(** C3 fails as stated: deliver pick 2 and then pick 1; the index goes from
    0 to 2 and then down to 1. *)
Lemma currentpickindex_decreases :
  let s1 := run Scenario.loaded [ProcessPick Scenario.pick2] in
  let s2 := run Scenario.loaded [ProcessPick Scenario.pick2; ProcessPick Scenario.pick1] in
  currentpickindex s1 = 2 ∧ currentpickindex s2 = 1
  ∧ currentpickindex s2 < currentpickindex s1.
Proof. by vm_compute. Qed.



(** A slot whose team id is the name of an inherited member: the pick is not
    applied at all. *)
Example unknown_team_named_constructor :
  let s := set_board [Pick.mk 1 "constructor" None] Scenario.loaded in
  teams s !! "constructor"%string = None
  ∧ throws (processpick s Scenario.pick1) = true
  ∧ dispatch s (ProcessPick Scenario.pick1) = s.
Proof. repeat split; by vm_compute. Qed.


(** ** Permanence of picks *)

(** C6, as the code has it.  A slot whose player is set keeps a player under
    every later sequence of pick events, but not necessarily the same one:
    after the events the slot holds either the player it had or the player of
    one of the events that carry the slot's pick number.  Pick number and team
    of the slot never change. *)
Theorem filled_slot_stays_filled
    (es : list PickEvent.t) (s : State) (j : nat) (slot : Pick.t) :
  board s !! j = Some slot →
  is_Some (Pick.player slot) →
  ∃ slot', board (run s (ProcessPick <$> es)) !! j = Some slot'
    ∧ is_Some (Pick.player slot')
    ∧ Pick.pick_number slot' = Pick.pick_number slot
    ∧ Pick.team_id slot' = Pick.team_id slot
    ∧ (Pick.player slot' = Pick.player slot
       ∨ ∃ e, e ∈ es ∧ PickEvent.pick_number e = Pick.pick_number slot
              ∧ Pick.player slot' = Some (PickEvent.player e)).
Proof.
  revert s slot. induction es as [|e es IH]; intros s slot Hj Hfilled.
  - exists slot. simpl. repeat split; auto.
  - destruct (dispatch_pick_slot s e j slot Hj)
      as (slot1 & Hj1 & Hn1 & Ht1 & Hp1).
    assert (is_Some (Pick.player slot1)) as Hfilled1.
    { destruct Hp1 as [->|[_ ->]]; [done|by eexists]. }
    destruct (IH _ _ Hj1 Hfilled1) as (slot' & Hj' & Hf' & Hn' & Ht' & Hp').
    exists slot'. simpl. split; [done|]. split; [done|].
    split; [congruence|]. split; [congruence|].
    destruct Hp' as [Hsame|(e' & He' & Hne' & Hpe')].
    + destruct Hp1 as [Hsame1|[Hne Hpe]].
      * left. congruence.
      * right. exists e. split; [left|]. split; [done|congruence].
    + right. exists e'. split; [by right|]. split; [congruence|done].
Qed.

Lemma filled_slot_stays_filled_witness :
  let s := dispatch Scenario.loaded (ProcessPick Scenario.pick1) in
  board s !! 0%nat = Some (Pick.mk 1 "T1" (Some Scenario.p1))
  ∧ ∃ slot', board (run s (ProcessPick <$> [Scenario.pick2])) !! 0%nat = Some slot'
      ∧ is_Some (Pick.player slot')
      ∧ Pick.pick_number slot' = 1
      ∧ Pick.team_id slot' = "T1"%string
      ∧ (Pick.player slot' = Some Scenario.p1
         ∨ ∃ e, e ∈ [Scenario.pick2] ∧ PickEvent.pick_number e = 1
                ∧ Pick.player slot' = Some (PickEvent.player e)).
Proof.
  split; [reflexivity|].
  apply (filled_slot_stays_filled [Scenario.pick2]
           (dispatch Scenario.loaded (ProcessPick Scenario.pick1)) 0
           (Pick.mk 1 "T1" (Some Scenario.p1))); [reflexivity|].
  exists Scenario.p1. reflexivity.
Defined.

(** C6 fails as stated: after pick 1 gave slot 1 to player 1, an event with
    pick number 1 and player 2 puts player 2 into the slot. *)
Lemma filled_slot_is_overwritten :
  let s1 := dispatch Scenario.loaded (ProcessPick Scenario.pick1) in
  let s2 := dispatch s1 (ProcessPick (PickEvent.mk 1 Scenario.p2)) in
  (Pick.player <$> board s1 !! 0%nat) = Some (Some Scenario.p1)
  ∧ (Pick.player <$> board s2 !! 0%nat) = Some (Some Scenario.p2)
  ∧ board s2 !! 0%nat ≠ board s1 !! 0%nat.
Proof. repeat split; by vm_compute. Qed.

(** ** Duplicate delivery *)

Lemma js_get_insert_eq {A} (m : gmap string A) k v : js_get (<[k:=v]> m) k = Own v.
Proof. unfold js_get. by rewrite lookup_insert_eq. Qed.

Lemma js_get_Own {A} (m : gmap string A) k v : js_get m k = Own v ↔ m !! k = Some v.
Proof.
  unfold js_get. destruct (m !! k); [|destruct (inherited k)]; split; congruence.
Qed.

Lemma js_get_Undefined {A} (m : gmap string A) k :
  js_get m k = Undefined → m !! k = None.
Proof. unfold js_get. destruct (m !! k); [done|]. by destruct (inherited k). Qed.

Lemma processpick_applied s e s1 :
  processpick s e = Returned s1 → ∃ i slot, applied e s1 i slot.
Proof.
  intros Hp.
  destruct (findindex (has_pick_number (PickEvent.pick_number e)) (board s))
    as [i|] eqn:Hi; [|by rewrite (processpick_not_found _ _ Hi) in Hp].
  destruct (findindex_lookup _ _ _ Hi) as (slot & Hslot & Hn).
  destruct (processpick_returned_fields _ _ _ _ Hi Hp) as (Hb & Ha & Hc & _).
  exists i, (Pick.set_player (Some (PickEvent.player e)) slot).
  unfold applied. rewrite Hb, Ha, Hc, filter_out_idemp.
  rewrite findindex_alter by done.
  rewrite list_lookup_alter_eq, Hslot. simpl.
  do 5 (split; [done|]).
  rewrite (processpick_found _ _ _ _ Hi Hslot) in Hp.
  destruct (js_get (teams s) (Pick.team_id slot)) as [team| |] eqn:Hteam;
    [|done|].
  - simpl in Hp.
    destruct (js_get (Team.roster team) _) as [r| |] eqn:Hr; [|done|];
      injection Hp as <-; simpl; rewrite js_get_insert_eq; simpl;
      rewrite lookup_insert_eq.
    + by exists r.
    + by exists [].
  - injection Hp as <-. simpl. by rewrite Hteam.
Qed.

Lemma processpick_replay s1 e i slot :
  applied e s1 i slot →
  ∃ s2, processpick s1 e = Returned s2
    ∧ board s2 = board s1
    ∧ availableplayers s2 = availableplayers s1
    ∧ currentpickindex s2 = currentpickindex s1
    ∧ totalpicks s2 = totalpicks s1
    ∧ selectedplayerdetails s2 = selectedplayerdetails s1
    ∧ status s2 = status s1
    ∧ error s2 = error s1
    ∧ match teams s1 !! Pick.team_id slot with
      | None => teams s2 = teams s1
      | Some team =>
          ∃ r, Team.roster team !! Player.position (PickEvent.player e)
               = Some (r ++ [PickEvent.player e])
             ∧ teams s2
               = <[Pick.team_id slot :=
                    Team.mk (<[Player.position (PickEvent.player e) :=
                                 (r ++ [PickEvent.player e]) ++ [PickEvent.player e]]>
                               (Team.roster team))]> (teams s1)
      end.
Proof.
  intros (Hi & Hslot & Hpl & Hpool & Hc & Hteam).
  assert (alter (Pick.set_player (Some (PickEvent.player e))) i (board s1)
          = board s1) as Hboard.
  { apply (alter_fixed _ _ _ slot); [done|].
    destruct slot; simpl in *; by subst. }
  rewrite (processpick_found _ _ _ _ Hi Hslot).
  destruct (js_get (teams s1) (Pick.team_id slot)) as [team| |] eqn:Hget;
    [|done|].
  - destruct Hteam as [r Hr]. simpl.
    apply js_get_Own in Hget. rewrite Hget.
    pose proof Hr as Hr'. apply js_get_Own in Hr'. rewrite Hr'.
    eexists. split; [reflexivity|]. simpl.
    rewrite Hboard, Hpool, Hc. do 7 (split; [done|]).
    by exists r.
  - apply js_get_Undefined in Hget. rewrite Hget.
    eexists. split; [reflexivity|]. simpl.
    rewrite Hboard, Hpool, Hc. done.
Qed.

(** Delivering an event a second time right after [processpick] applied it
    returns a state that agrees with the state after the first delivery on
    the board, the pool, the pick index and every other field except
    [teams]. *)
Lemma processpick_twice (s s1 : State) (e : PickEvent.t) :
  processpick s e = Returned s1 →
  ∃ s2 i slot,
    processpick s1 e = Returned s2
    ∧ findindex (has_pick_number (PickEvent.pick_number e)) (board s1) = Some i
    ∧ board s1 !! i = Some slot
    ∧ Pick.player slot = Some (PickEvent.player e)
    ∧ board s2 = board s1
    ∧ availableplayers s2 = availableplayers s1
    ∧ currentpickindex s2 = currentpickindex s1
    ∧ totalpicks s2 = totalpicks s1
    ∧ selectedplayerdetails s2 = selectedplayerdetails s1
    ∧ status s2 = status s1
    ∧ error s2 = error s1
    ∧ match teams s1 !! Pick.team_id slot with
      | None => teams s2 = teams s1
      | Some team =>
          ∃ r, Team.roster team !! Player.position (PickEvent.player e)
               = Some (r ++ [PickEvent.player e])
             ∧ teams s2
               = <[Pick.team_id slot :=
                    Team.mk (<[Player.position (PickEvent.player e) :=
                                 (r ++ [PickEvent.player e]) ++ [PickEvent.player e]]>
                               (Team.roster team))]> (teams s1)
      end.
Proof.
  intros (i & slot & Happlied)%processpick_applied.
  destruct (processpick_replay _ _ _ _ Happlied) as (s2 & Hp2 & Hrest).
  destruct Happlied as (Hi & Hslot & Hpl & _).
  exists s2, i, slot. auto.
Qed.

(** C1, as the code has it.  For every state whose board slot for the
    event's pick number already holds the event's player, and on which
    [processpick] runs to its end, a further delivery of the event leaves the
    board unchanged and only filters the pool, which is unchanged when it no
    longer holds the player (as after any earlier delivery); but the delivery
    is not a no-op: when the slot's team is known the player is pushed once
    more onto that team's array for the player's position, so [teams]
    changes, and only when the team is unknown are the rosters unchanged;
    and [currentpickindex] becomes the event's pick number.  No other field
    changes. *)
Theorem processpick_redelivery
    (s : State) (e : PickEvent.t) (i : nat) (slot : Pick.t) :
  findindex (has_pick_number (PickEvent.pick_number e)) (board s) = Some i →
  board s !! i = Some slot →
  Pick.player slot = Some (PickEvent.player e) →
  applicable s e = true →
  ∃ s', processpick s e = Returned s'
    ∧ board s' = board s
    ∧ availableplayers s'
      = filter (λ p, Player.player_id p ≠ Player.player_id (PickEvent.player e))
               (availableplayers s)
    ∧ ((∀ p, p ∈ availableplayers s →
             Player.player_id p ≠ Player.player_id (PickEvent.player e)) →
       availableplayers s' = availableplayers s)
    ∧ teams s' = teams_after_push (Pick.team_id slot) (PickEvent.player e) (teams s)
    ∧ (teams s !! Pick.team_id slot = None → teams s' = teams s)
    ∧ (∀ team, teams s !! Pick.team_id slot = Some team →
         teams s' ≠ teams s
         ∧ ∃ team', teams s' = <[Pick.team_id slot := team']> (teams s)
             ∧ Team.roster team'
               = <[Player.position (PickEvent.player e) :=
                     default [] (Team.roster team
                                 !! Player.position (PickEvent.player e))
                     ++ [PickEvent.player e]]> (Team.roster team))
    ∧ currentpickindex s' = PickEvent.pick_number e
    ∧ totalpicks s' = totalpicks s
    ∧ selectedplayerdetails s' = selectedplayerdetails s
    ∧ status s' = status s
    ∧ error s' = error s.
Proof.
  intros Hi Hslot Hpl [s' Hp]%processpick_returns_iff.
  destruct (processpick_returned_fields _ _ _ _ Hi Hp)
    as (Hb & Ha & Hc & Htot & Hsel & Hst & Herr).
  pose proof (processpick_returned_teams _ _ _ _ _ Hi Hslot Hp) as Ht.
  exists s'. split; [done|]. split.
  { rewrite Hb. apply (alter_fixed _ _ _ slot); [done|].
    destruct slot; simpl in *; by subst. }
  split; [done|]. split.
  { intros Hpool. rewrite Ha. by apply filter_all_keep. }
  split; [done|]. split.
  { intros Hnone. rewrite Ht. unfold teams_after_push. by rewrite Hnone. }
  split; [|done].
  intros team Hteam. rewrite Ht. unfold teams_after_push. rewrite Hteam.
  split; [|by eexists].
  intros Heq.
  apply (f_equal (λ ts, ts !! Pick.team_id slot)) in Heq.
  rewrite lookup_insert_eq, Hteam in Heq. injection Heq as Heq.
  apply (f_equal (λ t, Team.roster t !! Player.position (PickEvent.player e)))
    in Heq.
  simpl in Heq. rewrite lookup_insert_eq in Heq.
  destruct (Team.roster team !! Player.position (PickEvent.player e))
    as [r|]; [|done].
  simpl in Heq. injection Heq as Heq.
  apply (f_equal length) in Heq. rewrite length_app in Heq. simpl in Heq. lia.
Qed.

Lemma processpick_redelivery_witness :
  let s := run Scenario.loaded
             [ProcessPick Scenario.pick1; ProcessPick Scenario.pick2] in
  currentpickindex s = 2
  ∧ ∃ s', processpick s Scenario.pick1 = Returned s'
    ∧ board s' = board s
    ∧ availableplayers s' = filter (λ p, Player.player_id p ≠ 1) (availableplayers s)
    ∧ ((∀ p, p ∈ availableplayers s → Player.player_id p ≠ 1) →
       availableplayers s' = availableplayers s)
    ∧ teams s' = teams_after_push "T1" Scenario.p1 (teams s)
    ∧ (teams s !! "T1"%string = None → teams s' = teams s)
    ∧ (∀ team, teams s !! "T1"%string = Some team →
         teams s' ≠ teams s
         ∧ ∃ team', teams s' = <["T1"%string := team']> (teams s)
             ∧ Team.roster team'
               = <["QB"%string :=
                     default [] (Team.roster team !! "QB"%string)
                     ++ [Scenario.p1]]> (Team.roster team))
    ∧ currentpickindex s' = 1
    ∧ totalpicks s' = totalpicks s
    ∧ selectedplayerdetails s' = selectedplayerdetails s
    ∧ status s' = status s
    ∧ error s' = error s.
Proof.
  split; [by vm_compute|].
  apply (processpick_redelivery
           (run Scenario.loaded
              [ProcessPick Scenario.pick1; ProcessPick Scenario.pick2])
           Scenario.pick1 0 (Pick.mk 1 "T1" (Some Scenario.p1)));
    [reflexivity|reflexivity|reflexivity|by vm_compute].
Defined.

(** C1 fails as stated: after pick 1 was applied, slot 1 holds player 1;
    delivering pick 1 again returns normally and leaves team T1 with player 1
    twice in its QB array. *)
Lemma duplicate_pick_grows_roster :
  let s1 := dispatch Scenario.loaded (ProcessPick Scenario.pick1) in
  let o := processpick s1 Scenario.pick1 in
  (Pick.player <$> board s1 !! 0%nat) = Some (Some Scenario.p1)
  ∧ (teams s1 !! "T1"%string ≫= (λ t, Team.roster t !! "QB"%string))
    = Some [Scenario.p1]
  ∧ throws o = false
  ∧ (teams (commit s1 o) !! "T1"%string ≫= (λ t, Team.roster t !! "QB"%string))
    = Some [Scenario.p1; Scenario.p1]
  ∧ teams (commit s1 o) ≠ teams s1.
Proof.
  do 4 (split; [by vm_compute|]).
  intros H.
  apply (f_equal (λ ts, ts !! "T1"%string ≫= (λ t, Team.roster t !! "QB"%string))) in H.
  vm_compute in H. discriminate H.
Qed.

(** ** The partition of players between pool and rosters *)

Lemma roster_occ_insert_Some pid (roster : gmap string (list Player.t)) k r r' :
  roster !! k = Some r →
  (roster_occ pid (<[k:=r']> roster) + count_id pid r
   = roster_occ pid roster + count_id pid r')%nat.
Proof. exact (map_sum_insert_Some (count_id pid) roster k r r'). Qed.

Lemma roster_occ_insert_None pid (roster : gmap string (list Player.t)) k r' :
  roster !! k = None →
  roster_occ pid (<[k:=r']> roster) = (count_id pid r' + roster_occ pid roster)%nat.
Proof. exact (map_sum_insert_None (count_id pid) roster k r'). Qed.

Lemma teams_occ_insert_Some pid (ts : gmap string Team.t) k t t' :
  ts !! k = Some t →
  (teams_occ pid (<[k:=t']> ts) + roster_occ pid (Team.roster t)
   = teams_occ pid ts + roster_occ pid (Team.roster t'))%nat.
Proof.
  exact (map_sum_insert_Some (λ t, roster_occ pid (Team.roster t)) ts k t t').
Qed.

(** Pushing a player onto the array of a position (created on first use)
    adds one occurrence of the player's identity to the roster and none of
    any other. *)
Lemma roster_occ_push pid (roster : gmap string (list Player.t)) (p : Player.t) :
  roster_occ pid
    (<[Player.position p := default [] (roster !! Player.position p) ++ [p]]> roster)
  = (roster_occ pid roster
     + if decide (Player.player_id p = pid) then 1 else 0)%nat.
Proof.
  destruct (roster !! Player.position p) as [r|] eqn:Hr; simpl.
  - pose proof (roster_occ_insert_Some pid roster _ r (r ++ [p]) Hr) as H.
    rewrite count_id_app, count_id_singleton in H. lia.
  - rewrite (roster_occ_insert_None pid roster _ [p] Hr), count_id_singleton. lia.
Qed.

Lemma roster_occ_le_teams_occ pid (ts : gmap string Team.t) t team :
  ts !! t = Some team → (roster_occ pid (Team.roster team) ≤ teams_occ pid ts)%nat.
Proof.
  intros Ht.
  pose proof (teams_occ_insert_Some pid ts t team (Team.mk ∅) Ht) as H.
  assert (roster_occ pid ∅ = 0%nat) as H0 by apply map_fold_empty.
  cbn [Team.roster] in H. rewrite H0 in H. lia.
Qed.

(** C2, as the code has it.  The partition is kept by a fresh pick: when the
    state satisfies it, the event's slot exists, the slot's team is known and
    the player is in the pool, [processpick] returns a state in which every
    identity is held exactly as often as before (so none is lost and none is
    doubled), the picked player having moved from the pool into the roster
    of the slot's team: [teams] changes at that team only, whose array for
    the player's position gets the player appended, and that roster then
    holds the player's identity exactly once. *)
Theorem processpick_fresh_pick_keeps_partition
    (s : State) (e : PickEvent.t) (i : nat) (slot : Pick.t) (team : Team.t) :
  partition s →
  findindex (has_pick_number (PickEvent.pick_number e)) (board s) = Some i →
  board s !! i = Some slot →
  teams s !! Pick.team_id slot = Some team →
  js_get (Team.roster team) (Player.position (PickEvent.player e)) ≠ Inherited →
  (∃ p, p ∈ availableplayers s
        ∧ Player.player_id p = Player.player_id (PickEvent.player e)) →
  ∃ s', processpick s e = Returned s'
    ∧ (∀ pid, occ pid s' = occ pid s)
    ∧ partition s'
    ∧ count_id (Player.player_id (PickEvent.player e)) (availableplayers s') = 0%nat
    ∧ teams_occ (Player.player_id (PickEvent.player e)) (teams s') = 1%nat
    ∧ ∃ team',
        teams s' = <[Pick.team_id slot := team']> (teams s)
        ∧ Team.roster team'
          = <[Player.position (PickEvent.player e) :=
                default [] (Team.roster team !! Player.position (PickEvent.player e))
                ++ [PickEvent.player e]]> (Team.roster team)
        ∧ roster_occ (Player.player_id (PickEvent.player e)) (Team.roster team')
          = 1%nat.
Proof.
  intros Hpart Hi Hslot Hteam Hpos (p & Hp & Hid).
  set (id := Player.player_id (PickEvent.player e)) in *.
  set (roster' :=
         <[Player.position (PickEvent.player e) :=
             default [] (Team.roster team !! Player.position (PickEvent.player e))
             ++ [PickEvent.player e]]> (Team.roster team)).
  assert (processpick s e
          = Returned (set_currentpickindex (PickEvent.pick_number e)
              (set_teams (<[Pick.team_id slot := Team.mk roster']> (teams s))
                         (picked i e s)))) as Hrun.
  { rewrite (processpick_found _ _ _ _ Hi Hslot).
    apply js_get_Own in Hteam. rewrite Hteam. simpl. subst roster'.
    unfold js_get in *.
    destruct (Team.roster team !! Player.position (PickEvent.player e)); simpl;
      [done|].
    destruct (inherited (Player.position (PickEvent.player e)));
      [congruence|done]. }
  assert (∀ pid,
    count_id pid (filter (λ q, Player.player_id q ≠ id) (availableplayers s))
    = (if decide (pid = id) then 0 else count_id pid (availableplayers s))%nat
    ∧ teams_occ pid (<[Pick.team_id slot := Team.mk roster']> (teams s))
      = (teams_occ pid (teams s) + if decide (id = pid) then 1 else 0)%nat)
    as Hcount.
  { intros pid. split; [apply count_id_filter_out|].
    pose proof (teams_occ_insert_Some pid (teams s) _ team (Team.mk roster') Hteam) as H.
    simpl in H. subst roster'. rewrite roster_occ_push in H. fold id in H. lia. }
  assert (count_id id (availableplayers s) = 1%nat
          ∧ teams_occ id (teams s) = 0%nat) as [Hpool Hroster].
  { pose proof (count_id_pos id _ p Hp Hid). specialize (Hpart id).
    unfold occ in Hpart. lia. }
  assert (∀ pid,
    occ pid (set_currentpickindex (PickEvent.pick_number e)
              (set_teams (<[Pick.team_id slot := Team.mk roster']> (teams s))
                         (picked i e s)))
    = occ pid s) as Hocc.
  { intros pid. unfold occ. simpl. fold id.
    destruct (Hcount pid) as [-> ->].
    destruct (decide (pid = id)) as [->|Hne].
    - rewrite decide_True by done. lia.
    - rewrite decide_False by congruence. lia. }
  eexists. split; [exact Hrun|]. split; [exact Hocc|]. split.
  { intros pid. rewrite Hocc. apply Hpart. }
  simpl. fold id. destruct (Hcount id) as [-> ->].
  rewrite !decide_True by done.
  split; [lia|]. split; [lia|].
  exists (Team.mk roster'). split; [done|]. split; [done|].
  simpl. subst roster'. rewrite roster_occ_push. fold id.
  rewrite decide_True by done.
  pose proof (roster_occ_le_teams_occ id (teams s) _ team Hteam). lia.
Qed.

Lemma processpick_fresh_pick_keeps_partition_witness :
  partition Scenario.loaded
  ∧ ∃ s', processpick Scenario.loaded Scenario.pick1 = Returned s'
      ∧ (∀ pid, occ pid s' = occ pid Scenario.loaded)
      ∧ partition s'
      ∧ count_id 1 (availableplayers s') = 0%nat
      ∧ teams_occ 1 (teams s') = 1%nat
      ∧ ∃ team',
          teams s' = <["T1"%string := team']> (teams Scenario.loaded)
          ∧ Team.roster team'
            = <["QB"%string :=
                  default [] (Team.roster (Team.mk ∅) !! "QB"%string)
                  ++ [Scenario.p1]]> (Team.roster (Team.mk ∅))
          ∧ roster_occ 1 (Team.roster team') = 1%nat.
Proof.
  assert (partition Scenario.loaded) as Hpart.
  { intros pid. unfold occ.
    assert (teams_occ pid (teams Scenario.loaded) = 0%nat) as -> by (by vm_compute).
    unfold count_id. simpl. rewrite !filter_cons, filter_nil. simpl.
    repeat case_decide; simpl; lia. }
  split; [exact Hpart|].
  apply (processpick_fresh_pick_keeps_partition Scenario.loaded Scenario.pick1
           0 (Pick.mk 1 "T1" None) (Team.mk ∅)).
  - exact Hpart.
  - reflexivity.
  - reflexivity.
  - by vm_compute.
  - by vm_compute.
  - exists Scenario.p1. split; [left|reflexivity].
Defined.

(** C2 fails as stated: the loaded scenario satisfies the partition, and
    after pick 1 has been delivered twice player 1 is held twice, both times
    in the QB array of team T1. *)
Lemma duplicate_pick_breaks_partition :
  let s2 := run Scenario.loaded
              [ProcessPick Scenario.pick1; ProcessPick Scenario.pick1] in
  (∀ pid, occ pid Scenario.loaded
          = if bool_decide (pid ∈ [1; 2; 3]) then 1%nat else 0%nat)
  ∧ occ 1 s2 = 2%nat
  ∧ ¬ partition s2.
Proof.
  split; [|split; [by vm_compute|]].
  - intros pid. unfold occ.
    assert (teams_occ pid (teams Scenario.loaded) = 0%nat) as -> by (by vm_compute).
    unfold count_id. simpl. rewrite !filter_cons, filter_nil. simpl.
    case_bool_decide as Hin.
    + repeat (apply elem_of_cons in Hin as [->|Hin]; [by vm_compute|]).
      by apply elem_of_nil in Hin.
    + rewrite !not_elem_of_cons in Hin. destruct Hin as (? & ? & ? & _).
      rewrite !decide_False by done. done.
  - intros H. specialize (H 1). vm_compute in H. lia.
Qed.

(** * Further properties of the slice *)

(** ** One pick event, seen from the store *)

(** Either the event is dropped (the reducer threw and the store kept its
    state) or it is applied to the slot [findindex] found. *)
Lemma dispatch_pick_cases s e :
  dispatch s (ProcessPick e) = s
  ∨ ∃ i slot s',
      findindex (has_pick_number (PickEvent.pick_number e)) (board s) = Some i
      ∧ board s !! i = Some slot
      ∧ Pick.pick_number slot = PickEvent.pick_number e
      ∧ processpick s e = Returned s'
      ∧ dispatch s (ProcessPick e) = s'.
Proof.
  unfold dispatch. simpl.
  destruct (processpick s e) as [s'|err draft] eqn:Hp; simpl; [|by left].
  destruct (findindex (has_pick_number (PickEvent.pick_number e)) (board s))
    as [i|] eqn:Hi; [|by rewrite (processpick_not_found _ _ Hi) in Hp].
  destruct (findindex_lookup _ _ _ Hi) as (slot & Hslot & Hn).
  right. exists i, slot, s'. auto.
Qed.

Lemma findindex_exists {A} (f : A → bool) (l : list A) x :
  x ∈ l → f x = true → is_Some (findindex f l).
Proof.
  induction l as [|y l IH]; simpl; [by intros ?%elem_of_nil|].
  intros Hin Hx. destruct (f y) eqn:Hy; [by eexists|].
  apply elem_of_cons in Hin as [->|Hin]; [congruence|].
  destruct (IH Hin Hx) as [j ->]. by eexists.
Qed.

(** [findindex] returns the first index that satisfies the callback. *)
Lemma findindex_first {A} (f : A → bool) (l : list A) i j x :
  findindex f l = Some i → l !! j = Some x → f x = true → (i ≤ j)%nat.
Proof.
  revert i j. induction l as [|y l IH]; intros i j; simpl; [done|].
  destruct (f y) eqn:Hy.
  - intros [= <-] _ _. lia.
  - destruct (findindex f l) as [k|] eqn:Hk; simpl; [|done].
    intros [= <-]. destruct j as [|j]; simpl.
    + intros [= ->]. congruence.
    + intros Hj Hx. specialize (IH k j eq_refl Hj Hx). lia.
Qed.

(** [processpick] against the board's pick numbers, for ordinary keys. *)
Lemma processpick_throws_iff (s : State) (e : PickEvent.t) :
  (∀ slot, slot ∈ board s → inherited (Pick.team_id slot) = false) →
  inherited (Player.position (PickEvent.player e)) = false →
  throws (processpick s e) = false
  ↔ ∃ slot, slot ∈ board s ∧ Pick.pick_number slot = PickEvent.pick_number e.
Proof.
  intros Hteams Hpos. split.
  - intros Hthrows.
    destruct (findindex (has_pick_number (PickEvent.pick_number e)) (board s))
      as [i|] eqn:Hi.
    + destruct (findindex_lookup _ _ _ Hi) as (slot & Hslot & Hn).
      exists slot. split; [|done]. by eapply list_elem_of_lookup_2.
    + by rewrite (processpick_not_found _ _ Hi) in Hthrows.
  - intros (slot & Hin & Hn).
    destruct (findindex_exists (has_pick_number (PickEvent.pick_number e))
                (board s) slot Hin) as [i Hi].
    { by apply bool_decide_eq_true. }
    destruct (findindex_lookup _ _ _ Hi) as (slot' & Hslot' & _).
    rewrite (processpick_found _ _ _ _ Hi Hslot'). unfold js_get.
    rewrite (Hteams slot') by (by eapply list_elem_of_lookup_2).
    rewrite Hpos.
    destruct (teams s !! Pick.team_id slot') as [team|]; simpl; [|done].
    by destruct (Team.roster team !! _).
Qed.

(** X1. With team ids and positions that are ordinary keys (none is the name
    of a member inherited from [Object.prototype]), [processpick] runs to its
    end exactly when some slot of the board carries the event's pick number;
    otherwise it throws. *)
Theorem processpick_returns_iff_slot (s : State) (e : PickEvent.t) :
  (∀ slot, slot ∈ board s → inherited (Pick.team_id slot) = false) →
  inherited (Player.position (PickEvent.player e)) = false →
  throws (processpick s e) = false
  ↔ ∃ slot, slot ∈ board s ∧ Pick.pick_number slot = PickEvent.pick_number e.
Proof. exact (processpick_throws_iff s e). Qed.

Lemma processpick_returns_iff_slot_witness :
  throws (processpick Scenario.loaded Scenario.pick2) = false
  ↔ ∃ slot, slot ∈ board Scenario.loaded ∧ Pick.pick_number slot = 2.
Proof.
  apply (processpick_returns_iff_slot Scenario.loaded Scenario.pick2).
  - intros slot Hin. simpl in Hin.
    repeat (apply elem_of_cons in Hin as [->|Hin]; [by vm_compute|]).
    by apply elem_of_nil in Hin.
  - by vm_compute.
Defined.

Lemma run_cons s a acts : run s (a :: acts) = run (dispatch s a) acts.
Proof. reflexivity. Qed.

Lemma run_app s acts1 acts2 : run s (acts1 ++ acts2) = run (run s acts1) acts2.
Proof. apply foldl_app. Qed.

(** What a run of pick events leaves alone. *)
Lemma run_picks_frame (es : list PickEvent.t) (s : State) :
  let s' := run s (ProcessPick <$> es) in
  Pick.pick_number <$> board s' = Pick.pick_number <$> board s
  ∧ Pick.team_id <$> board s' = Pick.team_id <$> board s
  ∧ length (board s') = length (board s)
  ∧ totalpicks s' = totalpicks s
  ∧ selectedplayerdetails s' = selectedplayerdetails s
  ∧ status s' = status s
  ∧ error s' = error s.
Proof.
  cbv zeta. revert s. induction es as [|e es IH]; intros s; [done|].
  rewrite fmap_cons, run_cons.
  destruct (IH (dispatch s (ProcessPick e))) as (-> & -> & -> & -> & -> & -> & ->).
  destruct (dispatch_pick_cases s e) as [->|(i & slot & s1 & Hi & Hslot & _ & Hp & ->)];
    [done|].
  destruct (processpick_returned_fields _ _ _ _ Hi Hp)
    as (-> & _ & _ & -> & -> & -> & ->).
  rewrite length_alter.
  rewrite (list_fmap_alter Pick.pick_number _ id)
    by (by apply Forall_forall).
  rewrite (list_fmap_alter Pick.team_id _ id)
    by (by apply Forall_forall).
  rewrite !list_alter_id; done.
Qed.

(** X2. Pick events never resize or renumber the board and never touch the
    fields outside the board/pool/roster/index group: after any sequence of
    pick events, applied or dropped, the board has the same pick numbers and
    team ids in the same order, and [totalpicks], [selectedplayerdetails],
    [status] and [error] are as before. *)
Theorem pick_events_frame (es : list PickEvent.t) (s : State) :
  let s' := run s (ProcessPick <$> es) in
  Pick.pick_number <$> board s' = Pick.pick_number <$> board s
  ∧ Pick.team_id <$> board s' = Pick.team_id <$> board s
  ∧ length (board s') = length (board s)
  ∧ totalpicks s' = totalpicks s
  ∧ selectedplayerdetails s' = selectedplayerdetails s
  ∧ status s' = status s
  ∧ error s' = error s.
Proof. exact (run_picks_frame es s). Qed.

(** ** Any action but a snapshot load, seen from board, teams and pool *)

Lemma dispatch_bulk_cases s a :
  replaces_bulk a = false →
  (board (dispatch s a) = board s
   ∧ teams (dispatch s a) = teams s
   ∧ availableplayers (dispatch s a) = availableplayers s)
  ∨ ∃ e i slot,
      a = ProcessPick e
      ∧ findindex (has_pick_number (PickEvent.pick_number e)) (board s) = Some i
      ∧ board s !! i = Some slot
      ∧ Pick.pick_number slot = PickEvent.pick_number e
      ∧ board (dispatch s a)
        = alter (Pick.set_player (Some (PickEvent.player e))) i (board s)
      ∧ availableplayers (dispatch s a)
        = filter (λ p, Player.player_id p ≠ Player.player_id (PickEvent.player e))
                 (availableplayers s)
      ∧ teams (dispatch s a)
        = teams_after_push (Pick.team_id slot) (PickEvent.player e) (teams s).
Proof.
  destruct a as [e| | | | | | |]; try done; intros _;
    try (left; unfold dispatch; simpl;
         unfold fetchplayerhistory_fulfilled, fetchplayerhistory_rejected;
         by destruct (selectedplayerdetails s)).
  destruct (dispatch_pick_cases s e)
    as [->|(i & slot & s' & Hi & Hslot & Hn & Hp & ->)]; [by left|].
  right. exists e, i, slot.
  destruct (processpick_returned_fields _ _ _ _ Hi Hp) as (Hb & Ha & _).
  pose proof (processpick_returned_teams _ _ _ _ _ Hi Hslot Hp). auto 10.
Qed.

Lemma teams_after_push_dom tid p (ts : gmap string Team.t) :
  dom (teams_after_push tid p ts) = dom ts.
Proof.
  unfold teams_after_push. destruct (ts !! tid) as [team|] eqn:Ht; [|done].
  apply dom_insert_lookup_L. by eexists.
Qed.

Lemma teams_after_push_prefix tid p (ts : gmap string Team.t) t team pos r :
  ts !! t = Some team → Team.roster team !! pos = Some r →
  ∃ team' r', teams_after_push tid p ts !! t = Some team'
    ∧ Team.roster team' !! pos = Some r' ∧ r `prefix_of` r'.
Proof.
  intros Ht Hr. unfold teams_after_push.
  destruct (ts !! tid) as [team0|] eqn:Ht0; [|by exists team, r].
  destruct (decide (tid = t)) as [->|Hne].
  - assert (team0 = team) as -> by congruence.
    rewrite lookup_insert_eq.
    destruct (decide (Player.position p = pos)) as [->|Hnp].
    + eexists _, (r ++ [p]). split; [done|]. simpl.
      rewrite lookup_insert_eq, Hr. simpl. split; [done|]. by apply prefix_app_r.
    + eexists _, r. split; [done|]. simpl.
      rewrite lookup_insert_ne by done. done.
  - rewrite lookup_insert_ne by done. by exists team, r.
Qed.

Lemma teams_occ_after_push pid tid p (ts : gmap string Team.t) :
  teams_occ pid (teams_after_push tid p ts)
  = (teams_occ pid ts
     + if bool_decide (is_Some (ts !! tid) ∧ Player.player_id p = pid)
       then 1 else 0)%nat.
Proof.
  unfold teams_after_push. destruct (ts !! tid) as [team|] eqn:Ht.
  - pose proof (teams_occ_insert_Some pid ts tid team
                  (Team.mk (<[Player.position p :=
                     default [] (Team.roster team !! Player.position p) ++ [p]]>
                     (Team.roster team))) Ht) as H.
    simpl in H. rewrite roster_occ_push in H.
    destruct (decide (Player.player_id p = pid)) as [Hid|Hid].
    + rewrite bool_decide_eq_true_2 by (split; [by eexists|done]). lia.
    + rewrite bool_decide_eq_false_2 by (by intros [_ ?]). lia.
  - rewrite bool_decide_eq_false_2; [lia|]. by intros [[? [=]] _].
Qed.

(** X3. The pool only shrinks: through any sequence of actions that contains
    no snapshot load, the pool stays a subsequence (same records, same
    order) of what it was. *)
Theorem pool_only_shrinks (acts : list Action) (s : State) :
  forallb (λ a, negb (replaces_bulk a)) acts = true →
  availableplayers (run s acts) `sublist_of` availableplayers s.
Proof.
  revert s. induction acts as [|a acts IH]; intros s Hacts; [done|].
  simpl in Hacts. apply andb_true_iff in Hacts as [Ha%negb_true_iff Hacts].
  rewrite run_cons. etrans; [by apply IH|].
  destruct (dispatch_bulk_cases s a Ha)
    as [(_ & _ & ->)|(e & i & slot & _ & _ & _ & _ & _ & -> & _)]; [done|].
  apply sublist_filter.
Qed.

Lemma pool_only_shrinks_witness :
  availableplayers
    (run Scenario.loaded
       [ProcessPick Scenario.pick2; FetchPlayerHistoryPending 3;
        ProcessPick Scenario.pick1])
  `sublist_of` availableplayers Scenario.loaded.
Proof.
  apply (pool_only_shrinks
           [ProcessPick Scenario.pick2; FetchPlayerHistoryPending 3;
            ProcessPick Scenario.pick1] Scenario.loaded).
  reflexivity.
Defined.

(** X4. Rosters only grow by appending, and no team is added or removed:
    through any sequence of actions that contains no snapshot load the set
    of team ids stays the same, and every position array a team had is a
    prefix of the array it has afterwards. *)
Theorem rosters_only_append (acts : list Action) (s : State) :
  forallb (λ a, negb (replaces_bulk a)) acts = true →
  dom (teams (run s acts)) = dom (teams s)
  ∧ ∀ t team pos r,
      teams s !! t = Some team → Team.roster team !! pos = Some r →
      ∃ team' r', teams (run s acts) !! t = Some team'
        ∧ Team.roster team' !! pos = Some r' ∧ r `prefix_of` r'.
Proof.
  revert s. induction acts as [|a acts IH]; intros s Hacts.
  { split; [done|]. intros t team pos r ??. by exists team, r. }
  simpl in Hacts. apply andb_true_iff in Hacts as [Ha%negb_true_iff Hacts].
  rewrite run_cons. destruct (IH (dispatch s a) Hacts) as [Hdom Hpre].
  assert (dom (teams (dispatch s a)) = dom (teams s)
          ∧ ∀ t team pos r,
              teams s !! t = Some team → Team.roster team !! pos = Some r →
              ∃ team' r', teams (dispatch s a) !! t = Some team'
                ∧ Team.roster team' !! pos = Some r' ∧ r `prefix_of` r')
    as [Hdom1 Hpre1].
  { destruct (dispatch_bulk_cases s a Ha)
      as [(_ & -> & _)|(e & i & slot & _ & _ & _ & _ & _ & _ & ->)].
    - split; [done|]. intros t team pos r ??. by exists team, r.
    - split; [apply teams_after_push_dom|].
      intros t team pos r. apply teams_after_push_prefix. }
  split; [congruence|].
  intros t team pos r Ht Hr.
  destruct (Hpre1 t team pos r Ht Hr) as (team1 & r1 & Ht1 & Hr1 & Hp1).
  destruct (Hpre t team1 pos r1 Ht1 Hr1) as (team' & r' & Ht' & Hr' & Hp').
  exists team', r'. split; [done|]. split; [done|]. by etrans.
Qed.

Lemma rosters_only_append_witness :
  let s := dispatch Scenario.loaded (ProcessPick Scenario.pick1) in
  let acts := [ProcessPick (PickEvent.mk 3 Scenario.p3); ClearSelectedPlayer] in
  dom (teams (run s acts)) = dom (teams s)
  ∧ ∀ t team pos r,
      teams s !! t = Some team → Team.roster team !! pos = Some r →
      ∃ team' r', teams (run s acts) !! t = Some team'
        ∧ Team.roster team' !! pos = Some r' ∧ r `prefix_of` r'.
Proof.
  apply (rosters_only_append
           [ProcessPick (PickEvent.mk 3 Scenario.p3); ClearSelectedPlayer]
           (dispatch Scenario.loaded (ProcessPick Scenario.pick1))).
  reflexivity.
Defined.

(** X5. Every pick event that [processpick] applies adds exactly one roster
    record, a record of the event's player, when the slot's team is known,
    and none when it is unknown; the number of roster records of every other
    identity is unchanged.  This holds whether or not the player was in the
    pool and whether or not the slot was already filled. *)
Theorem processpick_roster_count (s s' : State) (e : PickEvent.t) :
  processpick s e = Returned s' →
  ∃ i slot,
    findindex (has_pick_number (PickEvent.pick_number e)) (board s) = Some i
    ∧ board s !! i = Some slot
    ∧ ∀ pid,
        teams_occ pid (teams s')
        = (teams_occ pid (teams s)
           + if bool_decide (is_Some (teams s !! Pick.team_id slot)
                             ∧ Player.player_id (PickEvent.player e) = pid)
             then 1 else 0)%nat.
Proof.
  intros Hp.
  destruct (findindex (has_pick_number (PickEvent.pick_number e)) (board s))
    as [i|] eqn:Hi; [|by rewrite (processpick_not_found _ _ Hi) in Hp].
  destruct (findindex_lookup _ _ _ Hi) as (slot & Hslot & _).
  exists i, slot. split; [done|]. split; [done|]. intros pid.
  rewrite (processpick_returned_teams _ _ _ _ _ Hi Hslot Hp).
  apply teams_occ_after_push.
Qed.

Lemma processpick_roster_count_witness :
  let s := dispatch Scenario.loaded (ProcessPick Scenario.pick1) in
  let e := PickEvent.mk 3 Scenario.p1 in
  ∃ i slot,
    findindex (has_pick_number 3) (board s) = Some i
    ∧ board s !! i = Some slot
    ∧ ∀ pid,
        teams_occ pid (teams (dispatch s (ProcessPick e)))
        = (teams_occ pid (teams s)
           + if bool_decide (is_Some (teams s !! Pick.team_id slot) ∧ (1 = pid)%Z)
             then 1 else 0)%nat.
Proof.
  apply (processpick_roster_count
           (dispatch Scenario.loaded (ProcessPick Scenario.pick1))
           (dispatch (dispatch Scenario.loaded (ProcessPick Scenario.pick1))
                     (ProcessPick (PickEvent.mk 3 Scenario.p1)))
           (PickEvent.mk 3 Scenario.p1)).
  by vm_compute.
Defined.

(** X6. Pool and rosters stay disjoint: if no identity is both in the pool
    and in a roster, this is still so after any sequence of actions that
    contains no snapshot load, duplicate and out-of-order pick events
    included. *)
Theorem pool_rosters_stay_disjoint (acts : list Action) (s : State) :
  pool_rosters_disjoint s →
  forallb (λ a, negb (replaces_bulk a)) acts = true →
  pool_rosters_disjoint (run s acts).
Proof.
  revert s. induction acts as [|a acts IH]; intros s Hdis Hacts; [exact Hdis|].
  simpl in Hacts. apply andb_true_iff in Hacts as [Ha%negb_true_iff Hacts].
  rewrite run_cons. apply IH; [|done].
  destruct (dispatch_bulk_cases s a Ha)
    as [(_ & Ht & Hpool)|(e & i & slot & _ & _ & _ & _ & _ & Hpool & Ht)].
  - intros pid. rewrite Ht, Hpool. apply Hdis.
  - intros pid. rewrite Ht, Hpool, teams_occ_after_push, count_id_filter_out.
    intros Hocc.
    destruct (decide (pid = Player.player_id (PickEvent.player e))) as [Hid|Hid];
      [done|].
    rewrite bool_decide_eq_false_2 in Hocc by (intros [_ ?]; congruence).
    apply Hdis. lia.
Qed.

Lemma pool_rosters_stay_disjoint_witness :
  pool_rosters_disjoint Scenario.loaded
  ∧ pool_rosters_disjoint
      (run Scenario.loaded
         [ProcessPick Scenario.pick1; ProcessPick Scenario.pick1;
          ProcessPick (PickEvent.mk 2 Scenario.p1)]).
Proof.
  assert (pool_rosters_disjoint Scenario.loaded) as Hdis.
  { intros pid Hocc. vm_compute in Hocc. lia. }
  split; [exact Hdis|].
  apply (pool_rosters_stay_disjoint
           [ProcessPick Scenario.pick1; ProcessPick Scenario.pick1;
            ProcessPick (PickEvent.mk 2 Scenario.p1)] Scenario.loaded Hdis).
  reflexivity.
Defined.

Lemma elem_of_alter_inv {A} (g : A → A) (l : list A) i y :
  y ∈ alter g i l → y ∈ l ∨ ∃ x, l !! i = Some x ∧ y = g x.
Proof.
  intros [j Hj]%list_elem_of_lookup_1.
  destruct (decide (i = j)) as [->|Hne].
  - rewrite list_lookup_alter_eq in Hj.
    destruct (l !! j) as [x|] eqn:Hx; simplify_eq/=. right. eauto.
  - rewrite list_lookup_alter_ne in Hj by done.
    left. by eapply list_elem_of_lookup_2.
Qed.

(** X7. No player shown on the board is in the pool: if that holds, it still
    holds after any sequence of actions that contains no snapshot load. *)
Theorem board_pool_stay_disjoint (acts : list Action) (s : State) :
  board_pool_disjoint s →
  forallb (λ a, negb (replaces_bulk a)) acts = true →
  board_pool_disjoint (run s acts).
Proof.
  revert s. induction acts as [|a acts IH]; intros s Hdis Hacts; [exact Hdis|].
  simpl in Hacts. apply andb_true_iff in Hacts as [Ha%negb_true_iff Hacts].
  rewrite run_cons. apply IH; [|done].
  destruct (dispatch_bulk_cases s a Ha)
    as [(Hb & _ & Hpool)|(e & i & slot & _ & _ & _ & _ & Hb & Hpool & _)].
  - intros slot' p. rewrite Hb, Hpool. apply Hdis.
  - intros slot' p. rewrite Hb, Hpool, count_id_filter_out.
    intros [Hin|(x & _ & ->)]%elem_of_alter_inv Hpl.
    + destruct (decide (Player.player_id p = Player.player_id (PickEvent.player e)));
        [done|]. by eapply Hdis.
    + simpl in Hpl. injection Hpl as <-. by rewrite decide_True.
Qed.

Lemma board_pool_stay_disjoint_witness :
  board_pool_disjoint Scenario.loaded
  ∧ board_pool_disjoint
      (run Scenario.loaded
         [ProcessPick Scenario.pick1; ProcessPick (PickEvent.mk 1 Scenario.p2)]).
Proof.
  assert (board_pool_disjoint Scenario.loaded) as Hdis.
  { intros slot p Hin Hpl. simpl in Hin.
    repeat (apply elem_of_cons in Hin as [->|Hin]; [discriminate Hpl|]).
    by apply elem_of_nil in Hin. }
  split; [exact Hdis|].
  apply (board_pool_stay_disjoint
           [ProcessPick Scenario.pick1; ProcessPick (PickEvent.mk 1 Scenario.p2)]
           Scenario.loaded Hdis).
  reflexivity.
Defined.

(** X8. A pick of a player the pool does not hold is applied all the same:
    when [processpick] runs to its end on an event whose player has no
    record in the pool, the pool is unchanged, the slot takes the player and
    the slot's team, if known, gets the player pushed onto its roster. *)
Theorem processpick_player_not_in_pool (s : State) (e : PickEvent.t) :
  applicable s e = true →
  (∀ p, p ∈ availableplayers s →
        Player.player_id p ≠ Player.player_id (PickEvent.player e)) →
  ∃ s' i slot,
    processpick s e = Returned s'
    ∧ findindex (has_pick_number (PickEvent.pick_number e)) (board s) = Some i
    ∧ board s !! i = Some slot
    ∧ availableplayers s' = availableplayers s
    ∧ board s' !! i = Some (Pick.set_player (Some (PickEvent.player e)) slot)
    ∧ teams s' = teams_after_push (Pick.team_id slot) (PickEvent.player e) (teams s).
Proof.
  intros [s' Hp]%processpick_returns_iff Hpool.
  destruct (findindex (has_pick_number (PickEvent.pick_number e)) (board s))
    as [i|] eqn:Hi; [|by rewrite (processpick_not_found _ _ Hi) in Hp].
  destruct (findindex_lookup _ _ _ Hi) as (slot & Hslot & _).
  destruct (processpick_returned_fields _ _ _ _ Hi Hp) as (Hb & Ha & _).
  exists s', i, slot. do 3 (split; [done|]).
  rewrite Ha, Hb, list_lookup_alter_eq, Hslot.
  rewrite filter_all_keep by done.
  do 2 (split; [done|]).
  by apply (processpick_returned_teams _ _ _ i).
Qed.

Lemma processpick_player_not_in_pool_witness :
  let s := dispatch Scenario.loaded (ProcessPick Scenario.pick1) in
  let e := PickEvent.mk 2 Scenario.p1 in
  ∃ s' i slot,
    processpick s e = Returned s'
    ∧ findindex (has_pick_number 2) (board s) = Some i
    ∧ board s !! i = Some slot
    ∧ availableplayers s' = availableplayers s
    ∧ board s' !! i = Some (Pick.set_player (Some Scenario.p1) slot)
    ∧ teams s' = teams_after_push (Pick.team_id slot) Scenario.p1 (teams s).
Proof.
  apply (processpick_player_not_in_pool
           (dispatch Scenario.loaded (ProcessPick Scenario.pick1))
           (PickEvent.mk 2 Scenario.p1)).
  - by vm_compute.
  - intros p Hin. vm_compute in Hin.
    repeat (apply elem_of_cons in Hin as [->|Hin]; [by vm_compute|]).
    by apply elem_of_nil in Hin.
Defined.

(** X9. When two slots of the board carry the same pick number, pick events
    only ever reach the first of them: the later slot keeps its contents
    through every sequence of pick events. *)
Theorem later_duplicate_slot_untouched
    (es : list PickEvent.t) (s : State) (i j : nat) (a b : Pick.t) :
  board s !! i = Some a →
  board s !! j = Some b →
  (i < j)%nat →
  Pick.pick_number a = Pick.pick_number b →
  board (run s (ProcessPick <$> es)) !! j = Some b.
Proof.
  revert s a. induction es as [|e es IH]; intros s a Hi Hj Hlt Hn; [done|].
  rewrite fmap_cons, run_cons.
  destruct (dispatch_pick_slot s e i a Hi) as (a' & Hi' & Hn' & _).
  apply (IH _ a'); [done| |done|congruence].
  destruct (dispatch_pick_cases s e)
    as [->|(k & slot & s' & Hk & _ & _ & Hp & ->)]; [done|].
  destruct (processpick_returned_fields _ _ _ _ Hk Hp) as (-> & _).
  rewrite list_lookup_alter_ne; [done|].
  intros ->.
  assert (has_pick_number (PickEvent.pick_number e) a = true) as Ha.
  { destruct (findindex_lookup _ _ _ Hk) as (b' & Hb' & Hnb).
    apply bool_decide_eq_true. congruence. }
  pose proof (findindex_first _ _ _ _ _ Hk Hi Ha). lia.
Qed.

Lemma later_duplicate_slot_untouched_witness :
  board (run DuplicateNumbers.state
           (ProcessPick <$> [Scenario.pick1; PickEvent.mk 1 Scenario.p2]))
    !! 1%nat
  = Some (Pick.mk 1 "T2" None).
Proof.
  apply (later_duplicate_slot_untouched
           [Scenario.pick1; PickEvent.mk 1 Scenario.p2]
           DuplicateNumbers.state 0 1 (Pick.mk 1 "T1" None) (Pick.mk 1 "T2" None));
    [reflexivity|reflexivity|lia|reflexivity].
Defined.

(** ** Snapshot loads, status and error *)

(** X10. A snapshot load is a full re-sync of the bulk fields: loading a
    snapshot after any sequence of pick events gives the same state as
    loading it without them, and of two loads in a row only the second
    counts. *)
Theorem snapshot_load_discards_picks
    (es : list PickEvent.t) (s : State) (first payload : Snapshot.t) :
  dispatch (run s (ProcessPick <$> es)) (FetchInitialStateFulfilled payload)
  = dispatch s (FetchInitialStateFulfilled payload)
  ∧ dispatch (dispatch s (FetchInitialStateFulfilled first))
             (FetchInitialStateFulfilled payload)
    = dispatch s (FetchInitialStateFulfilled payload).
Proof.
  split; [|done].
  pose proof (run_picks_frame es s) as Hframe. cbv zeta in Hframe.
  destruct Hframe as (_ & _ & _ & _ & Hsel & _ & Herr).
  unfold dispatch. simpl.
  unfold fetchinitialstate_fulfilled, set_totalpicks, set_currentpickindex,
    set_availableplayers, set_teams, set_board, set_status. simpl.
  by rewrite Hsel, Herr.
Qed.

Lemma dispatch_error s a :
  (∀ msg, a ≠ FetchInitialStateRejected msg) → error (dispatch s a) = error s.
Proof.
  intros Ha. destruct a as [e| | | |msg| | |]; try done.
  - destruct (dispatch_pick_cases s e)
      as [->|(i & slot & s' & Hi & _ & _ & Hp & ->)]; [done|].
    by destruct (processpick_returned_fields _ _ _ _ Hi Hp) as (_&_&_&_&_&_&->).
  - by destruct (Ha msg).
  - unfold dispatch. simpl. unfold fetchplayerhistory_fulfilled.
    by destruct (selectedplayerdetails s).
  - unfold dispatch. simpl. unfold fetchplayerhistory_rejected.
    by destruct (selectedplayerdetails s).
Qed.

(** X11. Only [fetchinitialstate.rejected] writes [error], and nothing clears
    it: through any sequence of actions without a rejected snapshot load,
    a later successful load included, [error] keeps its value. *)
Theorem error_only_written_by_rejected_load (acts : list Action) (s : State) :
  (∀ msg, FetchInitialStateRejected msg ∉ acts) →
  error (run s acts) = error s.
Proof.
  revert s. induction acts as [|a acts IH]; intros s Hacts; [done|].
  rewrite run_cons, IH.
  - apply dispatch_error. intros msg ->. apply (Hacts msg). left.
  - intros msg Hin. apply (Hacts msg). by right.
Qed.

Lemma error_only_written_by_rejected_load_witness :
  let s := dispatch initialState (FetchInitialStateRejected (Some "timeout"%string)) in
  let acts := [FetchInitialStatePending;
               FetchInitialStateFulfilled Scenario.snapshot;
               ProcessPick Scenario.pick1] in
  status (run s acts) = succeeded
  ∧ error (run s acts) = Some "timeout"%string.
Proof.
  split; [reflexivity|].
  apply (error_only_written_by_rejected_load
           [FetchInitialStatePending;
            FetchInitialStateFulfilled Scenario.snapshot;
            ProcessPick Scenario.pick1]
           (dispatch initialState (FetchInitialStateRejected (Some "timeout"%string)))).
  intros msg Hin.
  repeat (apply elem_of_cons in Hin as [Heq|Hin]; [discriminate Heq|]).
  by apply elem_of_nil in Hin.
Defined.

Lemma dispatch_status s a :
  is_snapshot_action a = false → status (dispatch s a) = status s.
Proof.
  destruct a as [e| | | | | | |]; try done; intros _.
  - destruct (dispatch_pick_cases s e)
      as [->|(i & slot & s' & Hi & _ & _ & Hp & ->)]; [done|].
    by destruct (processpick_returned_fields _ _ _ _ Hi Hp) as (_&_&_&_&_&->&_).
  - unfold dispatch. simpl. unfold fetchplayerhistory_fulfilled.
    by destruct (selectedplayerdetails s).
  - unfold dispatch. simpl. unfold fetchplayerhistory_rejected.
    by destruct (selectedplayerdetails s).
Qed.

(** X12. Pick events and detail actions never change [status]: through any
    sequence of actions that contains none of the three
    [fetchinitialstate] actions, a failed history fetch or a dropped pick
    event included, [status] keeps its value. *)
Theorem status_only_changed_by_snapshot_actions (acts : list Action) (s : State) :
  forallb (λ a, negb (is_snapshot_action a)) acts = true →
  status (run s acts) = status s.
Proof.
  revert s. induction acts as [|a acts IH]; intros s Hacts; [done|].
  simpl in Hacts. apply andb_true_iff in Hacts as [Ha%negb_true_iff Hacts].
  rewrite run_cons, IH by done. by apply dispatch_status.
Qed.

Lemma status_only_changed_by_snapshot_actions_witness :
  status (run Scenario.loaded
            [FetchPlayerHistoryPending 2;
             FetchPlayerHistoryRejected 2 (Some "not found"%string);
             ProcessPick (PickEvent.mk 7 Scenario.p1)])
  = status Scenario.loaded.
Proof.
  apply (status_only_changed_by_snapshot_actions
           [FetchPlayerHistoryPending 2;
            FetchPlayerHistoryRejected 2 (Some "not found"%string);
            ProcessPick (PickEvent.mk 7 Scenario.p1)] Scenario.loaded).
  reflexivity.
Defined.

(** X13. No action brings [status] back to [idle]: once the first snapshot
    request has been issued, [status] differs from [idle] after every
    sequence of actions. *)
Theorem status_never_returns_to_idle (acts : list Action) (s : State) :
  status s ≠ idle → status (run s acts) ≠ idle.
Proof.
  revert s. induction acts as [|a acts IH]; intros s Hs; [done|].
  rewrite run_cons. apply IH.
  destruct (is_snapshot_action a) eqn:Ha.
  - by destruct a.
  - by rewrite dispatch_status.
Qed.

Lemma status_never_returns_to_idle_witness :
  status (run (dispatch initialState FetchInitialStatePending)
              [FetchInitialStateRejected None; ClearSelectedPlayer;
               ProcessPick Scenario.pick1])
  ≠ idle.
Proof.
  apply (status_never_returns_to_idle
           [FetchInitialStateRejected None; ClearSelectedPlayer;
            ProcessPick Scenario.pick1]
           (dispatch initialState FetchInitialStatePending)).
  discriminate.
Defined.

(** ** Selection and history fetches *)

Lemma dispatch_detail_action s a :
  is_detail_action a = true →
  dispatch s a = set_selectedplayerdetails (selectedplayerdetails (dispatch s a)) s.
Proof.
  destruct a; try done; intros _; unfold dispatch; simpl; try done.
  - unfold fetchplayerhistory_fulfilled.
    by destruct s as [? ? ? ? ? [d|] ? ?].
  - unfold fetchplayerhistory_rejected.
    by destruct s as [? ? ? ? ? [d|] ? ?].
Qed.

(** A run of detail actions changes the detail only. *)
Lemma run_detail_actions (acts : list Action) (s : State) :
  forallb is_detail_action acts = true →
  run s acts = set_selectedplayerdetails (selectedplayerdetails (run s acts)) s.
Proof.
  revert s. induction acts as [|a acts IH]; intros s Hacts.
  { by destruct s. }
  simpl in Hacts. apply andb_true_iff in Hacts as [Ha Hacts].
  rewrite run_cons. rewrite (IH _ Hacts) at 1.
  rewrite (dispatch_detail_action s a Ha) at 2. done.
Qed.

(** X14. Selecting, clearing and history completions touch nothing but the
    selected player's detail: after any sequence of such actions the state
    is the original one with [selectedplayerdetails] replaced; board, teams,
    pool, pick index, total picks, status and error are as before. *)
Theorem detail_actions_only_touch_detail (acts : list Action) (s : State) :
  forallb is_detail_action acts = true →
  run s acts = set_selectedplayerdetails (selectedplayerdetails (run s acts)) s.
Proof. exact (run_detail_actions acts s). Qed.

Lemma detail_actions_only_touch_detail_witness :
  let acts := [FetchPlayerHistoryPending 2;
               FetchPlayerHistoryRejected 2 (Some "not found"%string);
               FetchPlayerHistoryPending 3; ClearSelectedPlayer] in
  run Scenario.loaded acts
  = set_selectedplayerdetails (selectedplayerdetails (run Scenario.loaded acts))
                              Scenario.loaded.
Proof.
  apply (detail_actions_only_touch_detail
           [FetchPlayerHistoryPending 2;
            FetchPlayerHistoryRejected 2 (Some "not found"%string);
            FetchPlayerHistoryPending 3; ClearSelectedPlayer] Scenario.loaded).
  reflexivity.
Defined.

(** X15. The two completions of a history fetch commute, and neither undoes
    the other: a failure keeps an attached history and a success keeps a
    recorded error.  After a selection, a success and a failure in either
    order leave the detail with the seeded player, the history, the error and
    [loading = false]. *)
Theorem history_completions_commute
    (s : State) (a b c : Z) (payload : History) (err : option ErrorInfo) :
  dispatch (dispatch s (FetchPlayerHistoryFulfilled a payload))
           (FetchPlayerHistoryRejected b err)
  = dispatch (dispatch s (FetchPlayerHistoryRejected b err))
             (FetchPlayerHistoryFulfilled a payload)
  ∧ selectedplayerdetails
      (run s [FetchPlayerHistoryPending c;
              FetchPlayerHistoryRejected b err;
              FetchPlayerHistoryFulfilled a payload])
    = Some {| Detail.player :=
                find (λ p, bool_decide (Player.player_id p = c)) (availableplayers s);
              Detail.history := Some payload;
              Detail.loading := false;
              Detail.error := err |}.
Proof.
  split; [|done].
  unfold dispatch. simpl.
  unfold fetchplayerhistory_fulfilled, fetchplayerhistory_rejected.
  by destruct s as [? ? ? ? ? [d|] ? ?].
Qed.

(** X16. A selection starts from scratch: whatever selections, clearings and
    completions came before, selecting a player gives the same state as
    selecting that player right away, so no history or error of an earlier
    selection is carried over; and clearing after it leaves no detail. *)
Theorem selection_starts_from_scratch (acts : list Action) (s : State) (arg : Z) :
  forallb is_detail_action acts = true →
  dispatch (run s acts) (FetchPlayerHistoryPending arg)
  = dispatch s (FetchPlayerHistoryPending arg)
  ∧ dispatch (dispatch (run s acts) (FetchPlayerHistoryPending arg))
             ClearSelectedPlayer
    = set_selectedplayerdetails None s.
Proof.
  intros Hacts.
  rewrite (run_detail_actions acts s Hacts).
  by destruct s.
Qed.

Lemma selection_starts_from_scratch_witness :
  let acts := [FetchPlayerHistoryPending 1;
               FetchPlayerHistoryFulfilled 1 "history of player 1";
               FetchPlayerHistoryRejected 1 (Some "late failure"%string)] in
  dispatch (run Scenario.loaded acts) (FetchPlayerHistoryPending 2)
  = dispatch Scenario.loaded (FetchPlayerHistoryPending 2)
  ∧ dispatch (dispatch (run Scenario.loaded acts) (FetchPlayerHistoryPending 2))
             ClearSelectedPlayer
    = set_selectedplayerdetails None Scenario.loaded.
Proof.
  apply (selection_starts_from_scratch
           [FetchPlayerHistoryPending 1;
            FetchPlayerHistoryFulfilled 1 "history of player 1";
            FetchPlayerHistoryRejected 1 (Some "late failure"%string)]
           Scenario.loaded 2).
  reflexivity.
Defined.

(** ** The board component *)

Lemma draftboard_lookup s j c :
  draftboard s !! j = Some c →
  ∃ pick, board s !! j = Some pick ∧ c = draftboard_cell (currentpickindex s) pick.
Proof.
  unfold draftboard. rewrite list_lookup_fmap.
  destruct (board s !! j) as [pick|]; [|done]. intros [= <-]. eauto.
Qed.

(** Integers of magnitude up to [2^53] are doubles. *)
Lemma round_double_exact z : - 2 ^ 53 ≤ z ≤ 2 ^ 53 → round_double z = z.
Proof.
  intros Hz. unfold round_double.
  destruct (decide (Z.abs z = 2 ^ 53)) as [Habs|Habs].
  - assert (z = 2 ^ 53 ∨ z = - 2 ^ 53) as [->| ->] by lia; reflexivity.
  - assert (Z.log2 (Z.abs z) - 52 ≤ 0) as Hk.
    { destruct (decide (Z.abs z = 0)) as [->|Hnz]; [by vm_compute|].
      assert (Z.log2 (Z.abs z) < 53); [|lia].
      apply Z.log2_lt_pow2; lia. }
    apply Z.leb_le in Hk. by rewrite Hk.
Qed.

Lemma js_add_exact a b : - 2 ^ 53 ≤ a + b ≤ 2 ^ 53 → js_add a b = a + b.
Proof. apply round_double_exact. Qed.

(** At [2^53] adding one is absorbed. *)
Example js_add_absorbs : js_add (2 ^ 53) 1 = 2 ^ 53.
Proof. reflexivity. Qed.

Lemma draftboard_cell_current cpi pick :
  DraftBoard.classname (draftboard_cell cpi pick) = "draft-pick-cell current-pick"%string
  ↔ Pick.pick_number pick = js_add cpi 1.
Proof.
  simpl. case_bool_decide; simpl; split; try done.
Qed.

(** X17. What the board shows after a pick: when [processpick] runs to its
    end, the cell of the slot it found shows the event's pick number and the
    player's name and position, and the cells marked as the current pick are
    exactly those whose pick number is the event's pick number plus one, the
    sum being that of doubles: it is the exact sum for pick numbers of
    magnitude below [2^53]. *)
Theorem draftboard_after_pick (s : State) (e : PickEvent.t) :
  applicable s e = true →
  ∃ s' i c,
    processpick s e = Returned s'
    ∧ findindex (has_pick_number (PickEvent.pick_number e)) (board s) = Some i
    ∧ draftboard s' !! i = Some c
    ∧ DraftBoard.pick_number c = PickEvent.pick_number e
    ∧ DraftBoard.player_name c = Some (Player.player_name (PickEvent.player e))
    ∧ DraftBoard.player_info c = Some (Player.position (PickEvent.player e))
    ∧ (∀ j c', draftboard s' !! j = Some c' →
        (DraftBoard.classname c' = "draft-pick-cell current-pick"%string
         ↔ DraftBoard.pick_number c' = js_add (PickEvent.pick_number e) 1))
    ∧ (- 2 ^ 53 ≤ PickEvent.pick_number e < 2 ^ 53 →
       js_add (PickEvent.pick_number e) 1 = PickEvent.pick_number e + 1).
Proof.
  intros [s' Hp]%processpick_returns_iff.
  destruct (findindex (has_pick_number (PickEvent.pick_number e)) (board s))
    as [i|] eqn:Hi; [|by rewrite (processpick_not_found _ _ Hi) in Hp].
  destruct (findindex_lookup _ _ _ Hi) as (slot & Hslot & Hn).
  destruct (processpick_returned_fields _ _ _ _ Hi Hp) as (Hb & _ & Hc & _).
  exists s', i,
    (draftboard_cell (currentpickindex s')
       (Pick.set_player (Some (PickEvent.player e)) slot)).
  split; [done|]. split; [done|]. split.
  { unfold draftboard. by rewrite list_lookup_fmap, Hb, list_lookup_alter_eq, Hslot. }
  do 3 (split; [done|]).
  split.
  - intros j c' (pick & _ & ->)%draftboard_lookup.
    rewrite draftboard_cell_current, Hc. done.
  - intros Hrange. apply js_add_exact. lia.
Qed.

Lemma draftboard_after_pick_witness :
  ∃ s' i c,
    processpick Scenario.loaded Scenario.pick1 = Returned s'
    ∧ findindex (has_pick_number 1) (board Scenario.loaded) = Some i
    ∧ draftboard s' !! i = Some c
    ∧ DraftBoard.pick_number c = 1
    ∧ DraftBoard.player_name c = Some "Ann"%string
    ∧ DraftBoard.player_info c = Some "QB"%string
    ∧ (∀ j c', draftboard s' !! j = Some c' →
        (DraftBoard.classname c' = "draft-pick-cell current-pick"%string
         ↔ DraftBoard.pick_number c' = js_add 1 1))
    ∧ (- 2 ^ 53 ≤ 1 < 2 ^ 53 → js_add 1 1 = 1 + 1).
Proof.
  apply (draftboard_after_pick Scenario.loaded Scenario.pick1).
  by vm_compute.
Defined.

(** X18. The board renders one cell per slot, keyed by the slot's pick
    number, and shows a player exactly in the filled slots, on every board;
    when the pick numbers of the board are pairwise distinct, at most one
    cell is marked as the current pick. *)
Theorem draftboard_cells (s : State) :
  length (draftboard s) = length (board s)
  ∧ DraftBoard.key <$> draftboard s = Pick.pick_number <$> board s
  ∧ (∀ j c pick, draftboard s !! j = Some c → board s !! j = Some pick →
       (is_Some (DraftBoard.player_name c) ↔ is_Some (Pick.player pick)))
  ∧ (NoDup (Pick.pick_number <$> board s) →
     ∀ i j ci cj,
       draftboard s !! i = Some ci → draftboard s !! j = Some cj →
       DraftBoard.classname ci = "draft-pick-cell current-pick"%string →
       DraftBoard.classname cj = "draft-pick-cell current-pick"%string →
       i = j).
Proof.
  split; [apply length_fmap|]. split.
  { unfold draftboard. rewrite <-list_fmap_compose. done. }
  split.
  { intros j c pick (pick' & Hpick' & ->)%draftboard_lookup Hpick.
    assert (pick' = pick) as -> by congruence.
    simpl. destruct (Pick.player pick); split; intros [? ?]; try done; by eexists. }
  intros Hnodup i j ci cj (pi & Hpi & ->)%draftboard_lookup
    (pj & Hpj & ->)%draftboard_lookup Hi%draftboard_cell_current
    Hj%draftboard_cell_current.
  eapply (NoDup_lookup _ i j (Pick.pick_number pi)); [exact Hnodup| |].
  - by rewrite list_lookup_fmap, Hpi.
  - rewrite list_lookup_fmap, Hpj. simpl. congruence.
Qed.

Lemma draftboard_cells_witness :
  let s := dispatch Scenario.loaded (ProcessPick Scenario.pick1) in
  NoDup (Pick.pick_number <$> board s)
  ∧ ∀ i j ci cj,
      draftboard s !! i = Some ci → draftboard s !! j = Some cj →
      DraftBoard.classname ci = "draft-pick-cell current-pick"%string →
      DraftBoard.classname cj = "draft-pick-cell current-pick"%string →
      i = j.
Proof.
  assert (NoDup (Pick.pick_number
                   <$> board (dispatch Scenario.loaded (ProcessPick Scenario.pick1))))
    as Hnodup.
  { apply (bool_decide_unpack _). by vm_compute. }
  split; [exact Hnodup|].
  apply (draftboard_cells (dispatch Scenario.loaded (ProcessPick Scenario.pick1))).
  exact Hnodup.
Defined.

(** On a board where a pick number occurs twice both cells are marked. *)
Example draftboard_duplicate_numbers_both_marked :
  DraftBoard.classname <$> draftboard DuplicateNumbers.state
  = ["draft-pick-cell current-pick"; "draft-pick-cell current-pick"]%string.
Proof. reflexivity. Qed.

(** ** Sequences of pick events *)

(** X19. Pick events on an empty board are all dropped: while no snapshot is
    loaded (the board is empty, as in [initialState]) every pick event makes
    [processpick] throw, and the store keeps its state through any sequence
    of them. *)
Theorem picks_on_empty_board_are_dropped (es : list PickEvent.t) (s : State) :
  board s = [] →
  run s (ProcessPick <$> es) = s
  ∧ ∀ e, throws (processpick s e) = true.
Proof.
  intros Hb.
  assert (∀ e, throws (processpick s e) = true
               ∧ dispatch s (ProcessPick e) = s) as Hdrop.
  { intros e. apply processpick_out_of_range. by rewrite Hb. }
  split; [|intros e; apply Hdrop].
  induction es as [|e es IH]; [done|].
  rewrite fmap_cons, run_cons. destruct (Hdrop e) as [_ ->]. exact IH.
Qed.

Lemma picks_on_empty_board_are_dropped_witness :
  run initialState (ProcessPick <$> [Scenario.pick1; Scenario.pick2]) = initialState
  ∧ ∀ e, throws (processpick initialState e) = true.
Proof.
  apply (picks_on_empty_board_are_dropped [Scenario.pick1; Scenario.pick2]
           initialState).
  reflexivity.
Defined.

(** X20. The last delivery decides the pick index: with team ids and
    positions that are ordinary keys, after any sequence of pick events
    followed by an event whose pick number is on the board,
    [currentpickindex] is that event's pick number, whatever the earlier
    events were and in whatever order they came. *)
Theorem last_pick_decides_index
    (es : list PickEvent.t) (e : PickEvent.t) (s : State) :
  (∀ slot, slot ∈ board s → inherited (Pick.team_id slot) = false) →
  inherited (Player.position (PickEvent.player e)) = false →
  (∃ slot, slot ∈ board s ∧ Pick.pick_number slot = PickEvent.pick_number e) →
  currentpickindex (run s (ProcessPick <$> (es ++ [e]))) = PickEvent.pick_number e.
Proof.
  intros Hteams Hpos (slot & Hin & Hn).
  rewrite fmap_app, run_app.
  change (currentpickindex
            (dispatch (run s (ProcessPick <$> es)) (ProcessPick e))
          = PickEvent.pick_number e).
  set (s1 := run s (ProcessPick <$> es)).
  pose proof (run_picks_frame es s) as Hframe. cbv zeta in Hframe.
  fold s1 in Hframe. destruct Hframe as (Hnum & Htid & _).
  assert (throws (processpick s1 e) = false) as Hreturns.
  { apply processpick_throws_iff; [|done|].
    - intros slot1 [k Hk]%list_elem_of_lookup_1.
      assert ((Pick.team_id <$> board s) !! k = Some (Pick.team_id slot1)) as Hk'.
      { by rewrite <-Htid, list_lookup_fmap, Hk. }
      rewrite list_lookup_fmap in Hk'.
      destruct (board s !! k) as [slot0|] eqn:Hk0; [|done].
      injection Hk' as <-. apply Hteams. by eapply list_elem_of_lookup_2.
    - apply list_elem_of_lookup_1 in Hin as [k Hk].
      assert ((Pick.pick_number <$> board s1) !! k = Some (Pick.pick_number slot))
        as Hk'.
      { by rewrite Hnum, list_lookup_fmap, Hk. }
      rewrite list_lookup_fmap in Hk'.
      destruct (board s1 !! k) as [slot1|] eqn:Hk1; [|done].
      injection Hk' as Hk'. exists slot1.
      split; [by eapply list_elem_of_lookup_2|congruence]. }
  unfold dispatch. simpl.
  destruct (processpick s1 e) as [s'|] eqn:Hp; [simpl|done].
  destruct (findindex (has_pick_number (PickEvent.pick_number e)) (board s1))
    as [i|] eqn:Hi; [|by rewrite (processpick_not_found _ _ Hi) in Hp].
  by destruct (processpick_returned_fields _ _ _ _ Hi Hp) as (_ & _ & -> & _).
Qed.

Lemma last_pick_decides_index_witness :
  currentpickindex
    (run Scenario.loaded
       (ProcessPick <$> ([Scenario.pick2; PickEvent.mk 3 Scenario.p3]
                          ++ [Scenario.pick1])))
  = 1.
Proof.
  apply (last_pick_decides_index [Scenario.pick2; PickEvent.mk 3 Scenario.p3]
           Scenario.pick1 Scenario.loaded).
  - intros slot Hin. simpl in Hin.
    repeat (apply elem_of_cons in Hin as [->|Hin]; [by vm_compute|]).
    by apply elem_of_nil in Hin.
  - by vm_compute.
  - exists (Pick.mk 1 "T1" None). split; [left|reflexivity].
Defined.
